(** * ocr_legal: a shallow embedding of [ocr_legal.py]

    The development follows the layout of the script:
    - [Text]      Python strings as lists of code points, and the string
                  operations the script calls ([re.sub], [split], [join],
                  [strip]), then [clean_text] and the statistics;
    - [Raster]    in-memory images and [preprocess_image];
    - [Pipeline]  the effectful part: [ocr_documento_legal], [save_results],
                  [process_batch] and [main], run against an explicit
                  environment and leaving a trace of what they did.
*)

From Stdlib Require Import List NArith ZArith Bool Arith Lia String Ascii.
Import ListNotations.

(* ================================================================== *)
(** * Text *)
(* ================================================================== *)

Module Text.

(** A Python [str] is a sequence of Unicode code points. *)
Definition codepoint := N.
Definition str := list codepoint.

Definition nl : codepoint := 10%N.   (* '\n' *)
Definition sp : codepoint := 32%N.   (* ' '  *)

(** An ASCII literal as a [str]; used to write examples. *)
Definition py (s : string) : str :=
  map N_of_ascii (list_ascii_of_string s).

(** [str.isspace] on one character, as [str.strip()] and [str.split()]
    without arguments use it: the code points CPython classifies as
    whitespace. *)
Definition isspace (c : codepoint) : bool :=
  ((9 <=? c) && (c <=? 13) ||
   (28 <=? c) && (c <=? 32) ||
   (c =? 133) || (c =? 160) || (c =? 5760) ||
   (8192 <=? c) && (c <=? 8202) ||
   (c =? 8232) || (c =? 8233) || (c =? 8239) || (c =? 8287) ||
   (c =? 12288))%N.

(** ** [re.sub] for the two patterns of the script

    Both patterns have the shape [c{m,}] (a run of at least [m] copies of
    one character [c]) and a constant replacement.  [re.sub] scans from the
    left; the quantifier is greedy, so a match takes the whole maximal run.
    [sub_run_from k] is the scan with [k] copies of [c] read and not yet
    emitted. *)
Definition flush (c : codepoint) (m : nat) (repl : str) (k : nat) : str :=
  if (m <=? k)%nat then repl else repeat c k.

Fixpoint sub_run_from (c : codepoint) (m : nat) (repl : str)
                      (k : nat) (s : str) : str :=
  match s with
  | [] => flush c m repl k
  | x :: r =>
      if (x =? c)%N then sub_run_from c m repl (S k) r
      else flush c m repl k ++ x :: sub_run_from c m repl 0 r
  end.

Definition sub_run (c : codepoint) (m : nat) (repl : str) (s : str) : str :=
  sub_run_from c m repl 0 s.

(** [re.sub(r' +', ' ', text)] *)
Definition collapse_spaces : str -> str := sub_run sp 1 [sp].

(** [re.sub(r'\n{3,}', '\n\n', text)] *)
Definition collapse_newlines : str -> str := sub_run nl 3 [nl; nl].

(** ** [split], [join], [strip] *)

(** [text.split('\n')]: always at least one piece. *)
Fixpoint split (sep : codepoint) (s : str) : list str :=
  match s with
  | [] => [[]]
  | x :: r =>
      if (x =? sep)%N then [] :: split sep r
      else match split sep r with
           | l :: ls => (x :: l) :: ls
           | [] => [[x]]
           end
  end.

(** ['\n'.join(lines)] *)
Fixpoint join (sep : codepoint) (ls : list str) : str :=
  match ls with
  | [] => []
  | [l] => l
  | l :: ls' => l ++ sep :: join sep ls'
  end.

Fixpoint lstrip (s : str) : str :=
  match s with
  | [] => []
  | x :: r => if isspace x then lstrip r else s
  end.

Definition rstrip (s : str) : str := rev (lstrip (rev s)).

(** [s.strip()] *)
Definition strip (s : str) : str := lstrip (rstrip s).

(** [text.split()]: the maximal runs of non-whitespace characters.
    [w] is the word being read, in reverse. *)
Fixpoint split_ws_from (w : str) (s : str) : list str :=
  match s with
  | [] => match w with [] => [] | _ => [rev w] end
  | x :: r =>
      if isspace x
      then match w with
           | [] => split_ws_from [] r
           | _ => rev w :: split_ws_from [] r
           end
      else split_ws_from (x :: w) r
  end.

Definition split_ws (s : str) : list str := split_ws_from [] s.

(** ** [clean_text] *)
Definition clean_text (text : str) : str :=
  let text := collapse_spaces text in
  let text := collapse_newlines text in
  let lines := map strip (split nl text) in
  let text := join nl lines in
  strip text.

(** ** The statistics of [ocr_documento_legal] *)

(** [if l.strip()]: a non-empty string is true. *)
Definition truthy (s : str) : bool :=
  match s with [] => false | _ => true end.

(** [len([l for l in text.split('\n') if l.strip()])] *)
Definition stat_lines (text : str) : nat :=
  List.length (filter (fun l => truthy (strip l)) (split nl text)).

(** [len(text.split())] *)
Definition stat_words (text : str) : nat := List.length (split_ws text).

(** [len(text)] *)
Definition stat_chars (text : str) : nat := List.length text.

End Text.

(* ================================================================== *)
(** * Raster images *)
(* ================================================================== *)

Module Raster.

Open Scope Z_scope.

(** The colour modes of an image: bilevel ("1"), greyscale, greyscale with
    alpha, and colour without and with alpha. *)
Inductive Mode := Bilevel | L | LA | RGB | RGBA.

Definition bands (m : Mode) : nat :=
  match m with
  | Bilevel | L => 1
  | LA => 2
  | RGB => 3
  | RGBA => 4
  end%nat.

(** One pixel: the samples of its bands. *)
Definition pixel := list Z.

(** An image carries its mode and its size, as [img.mode] and [img.size] do,
    and its pixels in row-major order. *)
Record Image := mkImage {
  mode : Mode;
  width : nat;
  height : nat;
  data : list pixel
}.

Definition size (img : Image) : nat * nat := (width img, height img).

Definition sample_ok (v : Z) : Prop := 0 <= v <= 255.

Definition pixel_ok (m : Mode) (p : pixel) : Prop :=
  List.length p = bands m /\ Forall sample_ok p.

(** A raster that a decoder can produce. *)
Definition valid (img : Image) : Prop :=
  List.length (data img) = (width img * height img)%nat /\
  Forall (pixel_ok (mode img)) (data img).

Definition clip8 (v : Z) : Z :=
  if v <=? 0 then 0 else if 255 <=? v then 255 else v.

(** Modelled from the spec: the luminance of one pixel, the "standard
    luminance mapping" of step 1; this part of the imaging library is not
    in the source.  Colour uses the ITU-R 601-2 weights in 16-bit fixed
    point, the other modes their grey band. *)
Definition luma (m : Mode) (p : pixel) : Z :=
  match m, p with
  | (Bilevel | L), [v] => v
  | LA, [v; _] => v
  | RGB, [r; g; b] => Z.shiftr (r * 19595 + g * 38470 + b * 7471 + 32768) 16
  | RGBA, [r; g; b; _] =>
      Z.shiftr (r * 19595 + g * 38470 + b * 7471 + 32768) 16
  | _, _ => 0
  end.

(** Modelled from the spec: [img.convert('L')], step 1 of section 4.1; the
    imaging library's conversion is not in the source.  A new image of the
    same size with one grey sample per pixel. *)
Definition convert_L (img : Image) : Image :=
  {| mode := L;
     width := width img;
     height := height img;
     data := map (fun p => [luma (mode img) p]) (data img) |}.

Definition grey (p : pixel) : Z :=
  match p with v :: _ => v | [] => 0 end.

Definition total (img : Image) : Z :=
  fold_right (fun p acc => grey p + acc) 0 (data img).

(** Modelled from the spec: the midtone of step 2, which the imaging
    library (not in the source) takes as the mean grey level rounded to the
    nearest integer, [int(mean + 0.5)]. *)
Definition mean_level (img : Image) : Z :=
  let n := Z.of_nat (List.length (data img)) in
  (2 * total (convert_L img) + n) / (2 * n).

(** Modelled from the spec: [ImageEnhance.Contrast(img).enhance(factor)],
    step 2 of section 4.1, for an integer factor; the imaging library's
    enhancer is not in the source.  Every sample moves away from the
    midtone, [mean + factor * (v - mean)], and is clipped to a byte. *)
Definition enhance_contrast (factor : Z) (img : Image) : Image :=
  let mean := mean_level img in
  {| mode := mode img;
     width := width img;
     height := height img;
     data := map (map (fun v => clip8 (mean + factor * (v - mean))))
                 (data img) |}.

(** The grey level at column [x], row [y]. *)
Definition getpixel (img : Image) (x y : nat) : Z :=
  grey (nth (y * width img + x) (data img) []).

(** Modelled from the spec: the "fixed sharpening convolution" of step 3
    at one pixel; the imaging library's kernel is not in the source: 32 at
    the centre, -2 around it, scale 16, rounded and clipped.  Border pixels
    are copied. *)
Definition sharpen_at (img : Image) (x y : nat) : Z :=
  let w := width img in
  let h := height img in
  if ((x =? 0) || (y =? 0) || (S x =? w) || (S y =? h))%nat
  then getpixel img x y
  else
    let around :=
      getpixel img (x - 1) (y - 1) + getpixel img x (y - 1)
      + getpixel img (x + 1) (y - 1)
      + getpixel img (x - 1) y + getpixel img (x + 1) y
      + getpixel img (x - 1) (y + 1) + getpixel img x (y + 1)
      + getpixel img (x + 1) (y + 1) in
    clip8 ((32 * getpixel img x y - 2 * around + 8) / 16).

(** Modelled from the spec: [img.filter(ImageFilter.SHARPEN)], step 3 of
    section 4.1, on a greyscale image; the imaging library's filter is not
    in the source.  A new image of the same size. *)
Definition filter_SHARPEN (img : Image) : Image :=
  let w := width img in
  {| mode := mode img;
     width := w;
     height := height img;
     data := map (fun i => [sharpen_at img (i mod w) (i / w)])
                 (seq 0 (List.length (data img))) |}.

(** ** [preprocess_image] *)
Definition preprocess_image (img : Image) : Image :=
  let img := convert_L img in
  let img := enhance_contrast 2 img in
  let img := filter_SHARPEN img in
  img.

End Raster.

(* ================================================================== *)
(** * The pipeline and its drivers *)
(* ================================================================== *)

Module Pipeline.

Import Text Raster.
Open Scope string_scope.
Open Scope list_scope.

Definition path := string.

(** What a failing library call raises: an [Exception] with its message,
    the class that [except Exception] catches.  Interrupts and
    [SystemExit], which are not of that class, are not raised by the calls
    modelled here; [sys.exit] is handled in [main]. *)
Definition Exception := string.

Inductive result (A : Type) : Type :=
| Ok (a : A)
| Raise (e : Exception).
Arguments Ok {A} a.
Arguments Raise {A} e.

(** ** The console

    What the script prints, by kind, with the values shown; elapsed times
    and the size in KB are floating-point and are left out.  [MCompleted],
    [MStats], [MFound] and [MSummary] each stand for a block of consecutive
    [print] calls (lines 125-127, 128-132, 179-180 and 199-203), printed or
    refused as a whole; every other constructor is one [print] call. *)
Inductive Msg :=
| MProcessing (name : string)
| MSize (w h : nat)
| MPreprocessing
| MSavedPreprocessed (p : path)
| MExtracting
| MCompleted
| MStats (lines words chars : nat)
| MSaved (p : path)
| MNoImages (dir : path)
| MFound (n : nat)
| MItem (i n : nat) (name : string)
| MDashes
| MBlank
| MError (e : Exception)
| MSummary
| MUsage
| MNotExists (p : path)
| MText (text : str).

(** ** The environment

    Everything outside the script: the file system, the path library, the
    image decoder and encoder, the recognition engine, the clock and the
    standard output. *)
Record Env := mkEnv {
  path_name : path -> string;                 (* Path(p).name *)
  path_stem : path -> string;                 (* Path(p).stem *)
  path_str : path -> path;                    (* str(Path(p)) *)
  path_join : path -> string -> path;         (* d / name *)
  path_exists : path -> bool;
  path_is_dir : path -> bool;
  glob : path -> string -> list path;         (* Path(d).glob(pattern) *)
  image_open : path -> result Image;          (* Image.open *)
  stat_size : path -> result N;               (* Path(p).stat().st_size *)
  mkdir : path -> result unit;                (* mkdir(exist_ok=True) *)
  image_save : Image -> path -> result unit;  (* img.save *)
  image_to_string :                           (* pytesseract.image_to_string *)
    Image -> string -> string -> result str;
  write_text : path -> str -> result unit;    (* write_text(encoding='utf-8') *)
  strftime : string -> string;                (* time.strftime *)
  stdout_write : Msg -> result unit           (* sys.stdout, under print *)
}.

(** ** The trace

    What a run did: the lines that reached the console and the calls it
    made to the environment. *)

Inductive Event :=
| Print (m : Msg)
| EvOpen (p : path)
| EvStat (p : path)
| EvMkdir (p : path)
| EvImageSave (img : Image) (p : path)
| EvRecognize (img : Image) (lang config : string)
| EvWriteText (p : path) (content : str).

Definition Trace := list Event.

(** ** Computations: a trace and a value or an exception *)
Definition M (A : Type) : Type := Trace * result A.

Definition ret {A} (a : A) : M A := ([], Ok a).

Definition bind {A B} (m : M A) (f : A -> M B) : M B :=
  match m with
  | (t, Ok a) => let (t', r) := f a in (t ++ t', r)
  | (t, Raise e) => (t, Raise e)
  end.

Definition emit (ev : Event) : M unit := ([ev], Ok tt).

(** [print(...)]: the line reaches the console, or standard output refuses
    it (a character it cannot encode, a closed stream) and [print] raises
    with nothing written. *)
Definition print (env : Env) (m : Msg) : M unit :=
  match stdout_write env m with
  | Ok _ => emit (Print m)
  | Raise e => ([], Raise e)
  end.

(** An external call: what is attempted is recorded, the environment
    decides how it ends. *)
Definition call {A} (ev : Event) (r : result A) : M A := ([ev], r).

(** [try: body except Exception as e: handler(e)] *)
Definition try_except {A} (body : M A) (handler : Exception -> M A) : M A :=
  match body with
  | (t, Ok a) => (t, Ok a)
  | (t, Raise e) => let (t', r) := handler e in (t ++ t', r)
  end.

Notation "x <- m ;; k" := (bind m (fun x => k))
  (at level 61, m at next level, right associativity).
Notation "m ;; k" := (bind m (fun _ => k))
  (at level 61, right associativity).

Definition when (b : bool) (m : M unit) : M unit :=
  if b then m else ret tt.

(** The fixed engine configuration of [ocr_documento_legal]. *)
Definition custom_config : string := "--oem 3 --psm 6".
Definition lang : string := "spa+eng".

(** ** [ocr_documento_legal] *)
Definition ocr_documento_legal (env : Env) (image_path : path)
    (preprocess save_preprocessed : bool) : M str :=
  print env (MProcessing (path_name env image_path)) ;;
  img <- call (EvOpen image_path) (image_open env image_path) ;;
  let img_size := size img in
  _ <- call (EvStat image_path) (stat_size env image_path) ;;
  print env (MSize (fst img_size) (snd img_size)) ;;
  img_processed <-
    (if preprocess then
       print env MPreprocessing ;;
       let img_processed := preprocess_image img in
       when save_preprocessed (
         let output_dir := "output" in
         call (EvMkdir output_dir) (mkdir env output_dir) ;;
         let preprocessed_path :=
           path_join env output_dir
             (path_stem env image_path ++ "_preprocessed.png")%string in
         call (EvImageSave img_processed preprocessed_path)
              (image_save env img_processed preprocessed_path) ;;
         print env (MSavedPreprocessed preprocessed_path)) ;;
       ret img_processed
     else ret img) ;;
  print env MExtracting ;;
  text <- call (EvRecognize img_processed lang custom_config)
               (image_to_string env img_processed lang custom_config) ;;
  let text := clean_text text in
  let lines := stat_lines text in
  let words := stat_words text in
  let chars := stat_chars text in
  print env MCompleted ;;
  print env (MStats lines words chars) ;;
  ret text.

(** The Markdown wrapper of [save_results]. *)
Definition md_content (env : Env) (base_name : string) (image_path : path)
    (text : str) : str :=
  py "# Documento: " ++ py base_name ++ [nl; nl]
  ++ py "**Fuente:** `" ++ py (path_name env image_path) ++ py "`  " ++ [nl]
  ++ py "**Fecha de procesamiento:** "
  ++ py (strftime env "%Y-%m-%d %H:%M:%S") ++ [nl; nl]
  ++ py "---" ++ [nl; nl]
  ++ text ++ [nl].

(** ** [save_results] *)
Definition save_results (env : Env) (text : str) (image_path : path)
    (include_metadata : bool) : M unit :=
  let output_dir := "output" in
  call (EvMkdir output_dir) (mkdir env output_dir) ;;
  let base_name := path_stem env image_path in
  let txt_file := path_join env output_dir (base_name ++ ".txt")%string in
  call (EvWriteText txt_file text) (write_text env txt_file text) ;;
  print env (MSaved txt_file) ;;
  when include_metadata (
    let md_file := path_join env output_dir (base_name ++ ".md")%string in
    let content := md_content env base_name image_path text in
    call (EvWriteText md_file content) (write_text env md_file content) ;;
    print env (MSaved md_file)).

(** ** [process_batch] *)

Definition extensions : list string :=
  ["*.png"; "*.jpg"; "*.jpeg"; "*.tiff"; "*.bmp"].

(** The files found, pattern after pattern. *)
Definition discover (env : Env) (input_dir : path) : list path :=
  flat_map (glob env input_dir) extensions.

(** The body of the [try] for one file. *)
Definition process_one (env : Env) (preprocess : bool) (img_path : path)
    : M unit :=
  text <- ocr_documento_legal env (path_str env img_path) preprocess false ;;
  save_results env text (path_str env img_path) true ;;
  print env MBlank.

(** The [for] loop over [enumerate(images, 1)]; [n] is [len(images)]. *)
Fixpoint batch_loop (env : Env) (preprocess : bool) (n : nat)
    (i : nat) (images : list path) : M unit :=
  match images with
  | [] => ret tt
  | img_path :: rest =>
      print env (MItem i n (path_name env img_path)) ;;
      print env MDashes ;;
      try_except (process_one env preprocess img_path)
                 (fun e => print env (MError e)) ;;
      batch_loop env preprocess n (S i) rest
  end.

Definition process_batch (env : Env) (input_dir : path) (preprocess : bool)
    : M unit :=
  let images := discover env input_dir in
  match images with
  | [] => print env (MNoImages input_dir)
  | _ =>
      print env (MFound (List.length images)) ;;
      batch_loop env preprocess (List.length images) 1 images ;;
      print env MSummary
  end.

(** ** [main]

    The process status: [sys.exit(1)] and an exception that nothing
    catches end the process with 1, a normal return with 0. *)
Definition status {A} (m : M A) : Trace * Z :=
  match m with
  | (t, Ok _) => (t, 0%Z)
  | (t, Raise _) => (t, 1%Z)
  end.

(** [print(...)] followed by [sys.exit(code)]: the process ends with
    [code], or with 1 when the [print] raised. *)
Definition then_exit {A} (m : M A) (code : Z) : Trace * Z :=
  match m with
  | (t, Ok _) => (t, code)
  | (t, Raise _) => (t, 1%Z)
  end.

Definition mem (x : string) (l : list string) : bool :=
  existsb (String.eqb x) l.

Definition main (env : Env) (argv : list string) : Trace * Z :=
  if (List.length argv <? 2)%nat then then_exit (print env MUsage) 1%Z
  else
    let path := nth 1 argv "" in
    let preprocess := negb (mem "--no-prep" argv) in
    let save_preprocessed := mem "--save-prep" argv in
    if negb (path_exists env path)
    then then_exit (print env (MNotExists path)) 1%Z
    else if path_is_dir env path then
      status (process_batch env (path_str env path) preprocess)
    else
      status (
        text <- ocr_documento_legal env path preprocess save_preprocessed ;;
        print env (MText text) ;;
        print env MBlank ;;
        save_results env text path true).

(** ** Reading a batch trace

    Each file of a batch opens with its [MItem] line; it failed when an
    [MError] line follows before the next file starts. *)
Inductive Outcome :=
| Success (name : string)
| Failure (name : string) (e : Exception).



Fixpoint error_of (t : Trace) : option Exception :=
  match t with
  | [] => None
  | Print (MItem _ _ _) :: _ => None
  | Print (MError e) :: _ => Some e
  | _ :: t' => error_of t'
  end.

Fixpoint outcomes (t : Trace) : list Outcome :=
  match t with
  | [] => []
  | Print (MItem _ _ name) :: t' =>
      match error_of t' with
      | Some e => Failure name e :: outcomes t'
      | None => Success name :: outcomes t'
      end
  | _ :: t' => outcomes t'
  end.

Definition is_raise {A} (r : result A) : bool :=
  match r with Raise _ => true | Ok _ => false end.

End Pipeline.

Import Text Raster Pipeline.

(* ================================================================== *)
(** * Sample environments *)
(* ================================================================== *)

Module Sample.

Import Text Raster Pipeline.
Open Scope string_scope.
Open Scope list_scope.

(** The last component of a path and its stem, for paths with [/]. *)
Fixpoint after_last (c : ascii) (acc : string) (s : string) : string :=
  match s with
  | EmptyString => acc
  | String x r =>
      if Ascii.eqb x c then after_last c r r
      else after_last c acc r
  end.

Definition name_of (p : path) : string := after_last "/" p p.

Fixpoint before_last (c : ascii) (s : string) : option string :=
  match s with
  | EmptyString => None
  | String x r =>
      match before_last c r with
      | Some t => Some (String x t)
      | None => if Ascii.eqb x c then Some EmptyString else None
      end
  end.

Definition stem_of (p : path) : string :=
  match before_last "." (name_of p) with
  | Some EmptyString | None => name_of p
  | Some t => t
  end.

(** A scan of two pixels. *)
Definition scan : Image :=
  {| mode := RGB; width := 2; height := 1;
     data := [[200; 10; 30]; [0; 255; 90]]%Z |}.

(** What the engine reads on it. *)
Definition reading : str :=
  py "Hola   mundo" ++ [nl; nl; nl; nl] ++ py "Adios" ++ [nl].

(** A directory [in] with a good file [a.png] and a file [b.jpg] that
    does not decode, and an empty directory [empty]. *)
Definition studio : Env :=
  {| path_name := name_of;
     path_stem := stem_of;
     path_str := fun p => p;
     path_join := fun d n => (d ++ "/" ++ n)%string;
     path_exists := fun p => mem p ["in"; "in/a.png"; "in/b.jpg"; "empty"];
     path_is_dir := fun p => mem p ["in"; "empty"];
     glob := fun d pat =>
       if String.eqb d "in" then
         if String.eqb pat "*.png" then ["in/a.png"]
         else if String.eqb pat "*.jpg" then ["in/b.jpg"]
         else []
       else [];
     image_open := fun p =>
       if String.eqb p "in/b.jpg"
       then Raise "cannot identify image file"
       else Ok scan;
     stat_size := fun _ => Ok 2048%N;
     mkdir := fun _ => Ok tt;
     image_save := fun _ _ => Ok tt;
     image_to_string := fun _ _ _ => Ok reading;
     write_text := fun _ _ => Ok tt;
     strftime := fun _ => "2024-01-01 00:00:00";
     stdout_write := fun _ => Ok tt |}.

(** The same, where images cannot be written. *)
Definition studio_no_save : Env :=
  {| path_name := path_name studio;
     path_stem := path_stem studio;
     path_str := path_str studio;
     path_join := path_join studio;
     path_exists := path_exists studio;
     path_is_dir := path_is_dir studio;
     glob := glob studio;
     image_open := image_open studio;
     stat_size := stat_size studio;
     mkdir := mkdir studio;
     image_save := fun _ _ => Raise "Permission denied";
     image_to_string := image_to_string studio;
     write_text := write_text studio;
     strftime := strftime studio;
     stdout_write := stdout_write studio |}.

(** A standard output that encodes ASCII only: it refuses every line of
    the script that holds an emoji or an accented letter, which leaves the
    numbered line of a file with an ASCII name, the line of dashes, the
    blank line and a text in ASCII. *)
Definition ascii_string (s : string) : bool :=
  forallb (fun a => (nat_of_ascii a <? 128)%nat) (list_ascii_of_string s).

Definition ascii_refusal : Exception :=
  "'ascii' codec can't encode character".

Definition ascii_console (m : Msg) : result unit :=
  match m with
  | MItem _ _ name =>
      if ascii_string name then Ok tt else Raise ascii_refusal
  | MDashes | MBlank => Ok tt
  | MText text =>
      if forallb (fun c => (c <? 128)%N) text then Ok tt
      else Raise ascii_refusal
  | _ => Raise ascii_refusal
  end.

(** The first studio behind that standard output. *)
Definition studio_ascii : Env :=
  {| path_name := path_name studio;
     path_stem := path_stem studio;
     path_str := path_str studio;
     path_join := path_join studio;
     path_exists := path_exists studio;
     path_is_dir := path_is_dir studio;
     glob := glob studio;
     image_open := image_open studio;
     stat_size := stat_size studio;
     mkdir := mkdir studio;
     image_save := image_save studio;
     image_to_string := image_to_string studio;
     write_text := write_text studio;
     strftime := strftime studio;
     stdout_write := ascii_console |}.

(** A byte that is not UTF-8.  In a file name it reaches the script as a
    lone surrogate, which a UTF-8 standard output refuses to encode. *)
Definition stray : string := String (ascii_of_nat 255) EmptyString.

Definition encodable (s : string) : bool :=
  forallb (fun a => negb (Ascii.eqb a (ascii_of_nat 255)))
          (list_ascii_of_string s).

Definition utf8_refusal : Exception :=
  "'utf-8' codec can't encode character: surrogates not allowed".

Definition utf8_console (m : Msg) : result unit :=
  let shown :=
    match m with
    | MProcessing s | MSavedPreprocessed s | MSaved s | MNoImages s
    | MItem _ _ s | MError s | MNotExists s => s
    | _ => EmptyString
    end in
  if encodable shown then Ok tt else Raise utf8_refusal.

(** A directory [scans] with three good files, the second of which has
    such a byte in its name; and an empty directory with such a byte in its
    own name.  Standard output is UTF-8. *)
Definition annex_odd : path := ("scans/b" ++ stray ++ ".jpg")%string.
Definition annex_empty : path := ("empty" ++ stray)%string.

Definition annex : Env :=
  {| path_name := name_of;
     path_stem := stem_of;
     path_str := fun p => p;
     path_join := fun d n => (d ++ "/" ++ n)%string;
     path_exists := fun p => mem p ["scans"; annex_empty];
     path_is_dir := fun p => mem p ["scans"; annex_empty];
     glob := fun d pat =>
       if String.eqb d "scans" then
         if String.eqb pat "*.png" then ["scans/a.png"]
         else if String.eqb pat "*.jpg" then [annex_odd]
         else if String.eqb pat "*.bmp" then ["scans/c.bmp"]
         else []
       else [];
     image_open := fun _ => Ok scan;
     stat_size := fun _ => Ok 2048%N;
     mkdir := fun _ => Ok tt;
     image_save := fun _ _ => Ok tt;
     image_to_string := fun _ _ _ => Ok reading;
     write_text := fun _ _ => Ok tt;
     strftime := fun _ => "2024-01-01 00:00:00";
     stdout_write := utf8_console |}.

End Sample.

(* ================================================================== *)
(** * The vocabulary of the properties *)
(* ================================================================== *)

Import Sample.

(** A string with no whitespace at either end. *)
Definition no_leading_ws (s : str) : Prop :=
  match s with
  | [] => True
  | c :: _ => isspace c = false
  end.

Definition no_trailing_ws (s : str) : Prop := no_leading_ws (rev s).

Definition trimmed (s : str) : Prop := no_leading_ws s /\ no_trailing_ws s.

(** A line is blank when it is empty or all whitespace. *)
Definition blank (l : str) : bool := forallb isspace l.

(** The lines of a text: what lies between its newline characters. *)
Definition lines_of (s : str) : list str := split nl s.

Definition first_line (s : str) : str := hd [] (lines_of s).
Definition last_line (s : str) : str := last (lines_of s) [].

(** [has_run c k s]: [k] copies of [c] in a row occur somewhere in [s]. *)
Definition has_run (c : codepoint) (k : nat) (s : str) : Prop :=
  exists a b, s = a ++ repeat c k ++ b.

(** Step 3 of [clean_text] on its own. *)
Definition strip_lines (s : str) : str := join nl (map strip (split nl s)).

(** The same for two copies, as a check that runs along the text;
    [prev] tells whether the character just read was [c]. *)
Fixpoint no_double (c : codepoint) (prev : bool) (s : str) : bool :=
  match s with
  | [] => true
  | x :: r =>
      if (x =? c)%N then negb prev && no_double c true r
      else no_double c false r
  end.

(** No run of [m] copies of [c], checked along the text; [k] copies were
    just read. *)
Fixpoint run_free (c : codepoint) (m : nat) (k : nat) (s : str) : bool :=
  match s with
  | [] => true
  | x :: r =>
      if (x =? c)%N then (S k <? m)%nat && run_free c m (S k) r
      else run_free c m 0 r
  end.

(** Whitespace that stays within a line. *)
Definition inline_ws (c : codepoint) : Prop := isspace c = true /\ c <> nl.

(** The text ends, or starts, with a line that holds a non-whitespace
    character: such a character, and only whitespace of the same line
    between it and the end, or the start, of the text. *)
Definition ends_in_text (s : str) : Prop :=
  exists a x u, s = a ++ x :: u /\ isspace x = false /\ Forall inline_ws u.

Definition starts_in_text (s : str) : Prop :=
  exists v y b, s = v ++ y :: b /\ isspace y = false /\ Forall inline_ws v.

(** ** Reading traces *)






(** What a run may touch: the directory [output], created if need be, and
    files directly in it. *)
Definition within_output (env : Env) (ev : Event) : Prop :=
  match ev with
  | EvMkdir d => d = "output"%string
  | EvWriteText p _ | EvImageSave _ p =>
      exists name, p = path_join env "output" name
  | _ => True
  end.

(** Console output only. *)
Definition console_only (ev : Event) : Prop :=
  match ev with
  | Print _ => True
  | _ => False
  end.


Definition not_image_save (ev : Event) : Prop :=
  match ev with
  | EvImageSave _ _ => False
  | _ => True
  end.

(** What [split_ws_from] emits for the word read so far when the word
    ends. *)
Definition word_end (w : str) : list str :=
  match w with
  | [] => []
  | _ => [rev w]
  end.

(** The non-blank lines of a text with their whitespace taken out: a
    newline ends a line, other whitespace is passed over.  [cur] is the
    line being read, in reverse. *)
Fixpoint cores_from (cur : str) (s : str) : list str :=
  match s with
  | [] => word_end cur
  | x :: r =>
      if (x =? nl)%N then word_end cur ++ cores_from [] r
      else if isspace x then cores_from cur r
      else cores_from (x :: cur) r
  end.

Definition cores (s : str) : list str := cores_from [] s.

(** ** Properties of traces *)

(** The configuration the engine is to be called with. *)
Definition fixed_config (ev : Event) : Prop :=
  match ev with
  | EvRecognize _ l c => l = "spa+eng"%string /\ c = "--oem 3 --psm 6"%string
  | _ => True
  end.

(** Nothing about a preprocessed image: no write of one and no line
    announcing one. *)
Definition no_preprocessed_artifact (ev : Event) : Prop :=
  match ev with
  | EvImageSave _ _ => False
  | Print (MSavedPreprocessed _) => False
  | _ => True
  end.

Definition no_recognition (ev : Event) : Prop :=
  match ev with
  | EvRecognize _ _ _ => False
  | _ => True
  end.


(** The lines that [process_batch] itself prints. *)
Definition batch_line (m : Msg) : Prop :=
  match m with
  | MNoImages _ | MFound _ | MItem _ _ _ | MDashes | MError _ | MSummary =>
      True
  | _ => False
  end.



(* ================================================================== *)
(** * Facts about the string operations *)
(* ================================================================== *)

Section StripFacts.

Lemma isspace_nl : isspace nl = true.
Proof. reflexivity. Qed.

Lemma isspace_sp : isspace sp = true.
Proof. reflexivity. Qed.

Lemma lstrip_no_leading s : no_leading_ws (lstrip s).
Proof.
  induction s as [|x r IH]; simpl; [exact I|].
  destruct (isspace x) eqn:E; [exact IH | exact E].
Qed.

Lemma lstrip_fixed s : no_leading_ws s -> lstrip s = s.
Proof.
  destruct s as [|x r]; simpl; [reflexivity|].
  intros ->. reflexivity.
Qed.

(** [lstrip] only removes a prefix of whitespace. *)
Lemma lstrip_suffix s :
  exists ws, s = ws ++ lstrip s /\ forallb isspace ws = true.
Proof.
  induction s as [|x r [ws [H1 H2]]]; simpl.
  - exists []. split; reflexivity.
  - destruct (isspace x) eqn:E.
    + exists (x :: ws). simpl. rewrite E, H2. split; [f_equal; exact H1 | reflexivity].
    + exists []. split; reflexivity.
Qed.

Lemma lstrip_blank s : forallb isspace s = true <-> lstrip s = [].
Proof.
  induction s as [|x r IH]; simpl.
  - split; reflexivity.
  - destruct (isspace x); simpl; [exact IH|].
    split; discriminate.
Qed.

Lemma lstrip_app_blank ws s :
  forallb isspace ws = true -> lstrip (ws ++ s) = lstrip s.
Proof.
  induction ws as [|x r IH]; simpl; [reflexivity|].
  destruct (isspace x); simpl; [exact IH | discriminate].
Qed.

Lemma forallb_rev (f : codepoint -> bool) s :
  forallb f (rev s) = forallb f s.
Proof.
  induction s as [|x r IH]; simpl; [reflexivity|].
  rewrite forallb_app, IH. simpl. rewrite andb_true_r. apply andb_comm.
Qed.

(** What the text keeps when a trimmed suffix is cut from it still ends
    where the text ended. *)
Lemma lstrip_keeps_end s : no_trailing_ws s -> no_trailing_ws (lstrip s).
Proof.
  unfold no_trailing_ws. intros H.
  destruct (lstrip_suffix s) as [ws [Hs Hws]].
  destruct (lstrip s) as [|y t] eqn:E; [exact I|].
  rewrite Hs, rev_app_distr in H.
  destruct (rev (y :: t)) as [|z u] eqn:R.
  - apply (f_equal (@List.length _)) in R. rewrite length_rev in R. discriminate.
  - exact H.
Qed.

Lemma rstrip_no_trailing s : no_trailing_ws (rstrip s).
Proof.
  unfold no_trailing_ws, rstrip. rewrite rev_involutive.
  apply lstrip_no_leading.
Qed.

Lemma strip_trimmed s : trimmed (strip s).
Proof.
  split.
  - apply lstrip_no_leading.
  - apply lstrip_keeps_end, rstrip_no_trailing.
Qed.

Lemma rstrip_fixed s : no_trailing_ws s -> rstrip s = s.
Proof.
  unfold no_trailing_ws, rstrip. intros H.
  rewrite (lstrip_fixed _ H). apply rev_involutive.
Qed.

Lemma strip_fixed s : trimmed s -> strip s = s.
Proof.
  intros [H1 H2]. unfold strip.
  rewrite (rstrip_fixed _ H2). apply lstrip_fixed, H1.
Qed.

(** A string strips to nothing exactly when it is all whitespace. *)
Lemma strip_blank s : strip s = [] <-> forallb isspace s = true.
Proof.
  unfold strip, rstrip. split.
  - intros H. apply lstrip_blank in H. rewrite forallb_rev in H.
    destruct (lstrip_suffix (rev s)) as [ws [Hs Hws]].
    rewrite <- (forallb_rev _ s), Hs, forallb_app, Hws, H. reflexivity.
  - intros H. rewrite <- forallb_rev in H. apply lstrip_blank in H.
    rewrite H. reflexivity.
Qed.

Lemma truthy_strip s : truthy (strip s) = negb (forallb isspace s).
Proof.
  destruct (forallb isspace s) eqn:E.
  - apply strip_blank in E. rewrite E. reflexivity.
  - destruct (strip s) eqn:S; [|reflexivity].
    apply strip_blank in S. congruence.
Qed.

Lemma In_lstrip x s : In x (lstrip s) -> In x s.
Proof.
  destruct (lstrip_suffix s) as [ws [Hs _]].
  intros H. rewrite Hs. apply in_or_app. right. exact H.
Qed.

Lemma In_strip x s : In x (strip s) -> In x s.
Proof.
  unfold strip, rstrip. intros H.
  apply In_lstrip in H. apply in_rev in H.
  apply In_lstrip in H. apply in_rev in H. exact H.
Qed.

End StripFacts.

Section SplitJoinFacts.

Lemma split_nonempty sep s : split sep s <> [].
Proof.
  destruct s as [|x r]; simpl; [discriminate|].
  destruct (x =? sep)%N; [discriminate|].
  destruct (split sep r); discriminate.
Qed.

Lemma split_cons_sep sep r : split sep (sep :: r) = [] :: split sep r.
Proof. simpl. rewrite N.eqb_refl. reflexivity. Qed.

Lemma split_cons_other sep x r :
  x <> sep ->
  split sep (x :: r) = (x :: hd [] (split sep r)) :: tl (split sep r).
Proof.
  intros H. simpl. apply N.eqb_neq in H. rewrite H.
  destruct (split sep r) eqn:E; [|reflexivity].
  exfalso. exact (split_nonempty _ _ E).
Qed.

(** No piece holds the separator. *)
Lemma split_pieces sep s : Forall (fun l => ~ In sep l) (split sep s).
Proof.
  induction s as [|x r IH]; simpl.
  - constructor; [intros []|constructor].
  - destruct (x =? sep)%N eqn:E.
    + constructor; [intros []|exact IH].
    + apply N.eqb_neq in E.
      destruct (split sep r) as [|l ls]; inversion IH; subst.
      * constructor; [|constructor]. intros [H|[]]. congruence.
      * constructor; [|assumption]. intros [H|H]; [congruence|contradiction].
Qed.

(** Splitting what was joined gives the pieces back. *)
Lemma split_join sep ls :
  ls <> [] -> Forall (fun l => ~ In sep l) ls ->
  split sep (join sep ls) = ls.
Proof.
  induction ls as [|l ls IH]; [congruence|].
  intros _ H. inversion H as [|? ? Hl Hls]; subst. clear H.
  destruct ls as [|l' ls'].
  - simpl. clear IH Hls. induction l as [|x r IHr]; [reflexivity|].
    simpl. destruct (x =? sep)%N eqn:E.
    + apply N.eqb_eq in E. subst. exfalso. apply Hl. left. reflexivity.
    + rewrite IHr; [reflexivity|]. intros H. apply Hl. right. exact H.
  - assert (IH' : split sep (join sep (l' :: ls')) = l' :: ls')
      by (apply IH; [discriminate | exact Hls]).
    change (join sep (l :: l' :: ls')) with (l ++ sep :: join sep (l' :: ls')).
    clear IH Hls. induction l as [|x r IHr].
    + cbn [app]. rewrite split_cons_sep, IH'. reflexivity.
    + cbn [app split]. destruct (x =? sep)%N eqn:E.
      * apply N.eqb_eq in E. subst. exfalso. apply Hl. left. reflexivity.
      * rewrite IHr; [reflexivity|]. intros H. apply Hl. right. exact H.
Qed.

(** Joining what was split gives the text back. *)
Lemma join_split sep s : join sep (split sep s) = s.
Proof.
  induction s as [|x r IH]; [reflexivity|].
  simpl. destruct (x =? sep)%N eqn:E.
  - apply N.eqb_eq in E. subst.
    destruct (split sep r) as [|l ls] eqn:S;
      [exfalso; exact (split_nonempty _ _ S)|].
    change (join sep ([] :: l :: ls)) with (sep :: join sep (l :: ls)).
    rewrite IH. reflexivity.
  - destruct (split sep r) as [|l ls] eqn:S;
      [exfalso; exact (split_nonempty _ _ S)|].
    destruct ls as [|l' ls'].
    + simpl in *. congruence.
    + change (join sep ((x :: l) :: l' :: ls'))
        with (x :: (l ++ sep :: join sep (l' :: ls'))).
      change (join sep (l :: l' :: ls'))
        with (l ++ sep :: join sep (l' :: ls')) in IH.
      rewrite IH. reflexivity.
Qed.

(** A separator in the text ends one piece and starts the next. *)
Lemma split_app_sep sep a b :
  split sep (a ++ sep :: b) = split sep a ++ split sep b.
Proof.
  induction a as [|x r IH].
  - cbn [app]. rewrite split_cons_sep. reflexivity.
  - cbn [app split]. destruct (x =? sep)%N.
    + rewrite IH. reflexivity.
    + rewrite IH.
      destruct (split sep r) as [|l ls] eqn:S;
        [exfalso; exact (split_nonempty _ _ S)|].
      reflexivity.
Qed.

Lemma split_no_sep sep s : ~ In sep s -> split sep s = [s].
Proof.
  induction s as [|x r IH]; [reflexivity|].
  intros H. simpl. destruct (x =? sep)%N eqn:E.
  - apply N.eqb_eq in E. subst. exfalso. apply H. left. reflexivity.
  - rewrite IH; [reflexivity|]. intros H'. apply H. right. exact H'.
Qed.

Lemma join_app sep l1 l2 :
  l1 <> [] -> l2 <> [] ->
  join sep (l1 ++ l2) = join sep l1 ++ sep :: join sep l2.
Proof.
  intros H1 H2. induction l1 as [|l ls IH]; [congruence|].
  destruct ls as [|l' ls'].
  - cbn [app]. destruct l2; [congruence|]. reflexivity.
  - change (join sep ((l :: l' :: ls') ++ l2))
      with (l ++ sep :: join sep ((l' :: ls') ++ l2)).
    rewrite IH by discriminate.
    change (join sep (l :: l' :: ls'))
      with (l ++ sep :: join sep (l' :: ls')).
    rewrite <- app_assoc. reflexivity.
Qed.

End SplitJoinFacts.

Section LineFacts.

Lemma split_snoc_other sep a x :
  x <> sep ->
  split sep (a ++ [x]) =
  removelast (split sep a) ++ [last (split sep a) [] ++ [x]].
Proof.
  intros Hx. induction a as [|y r IH].
  - simpl. apply N.eqb_neq in Hx. rewrite Hx. reflexivity.
  - cbn [app split]. rewrite IH.
    destruct (split sep r) as [|l ls] eqn:S;
      [exfalso; exact (split_nonempty _ _ S)|].
    destruct (y =? sep)%N.
    + destruct ls; reflexivity.
    + destruct ls as [|l' ls']; reflexivity.
Qed.

Lemma split_rev sep s :
  split sep (rev s) = rev (map (@rev codepoint) (split sep s)).
Proof.
  induction s as [|x r IH]; [reflexivity|].
  cbn [rev]. destruct (N.eq_dec x sep) as [->|Hx].
  - rewrite split_app_sep, split_cons_sep, IH. reflexivity.
  - rewrite split_snoc_other, IH, split_cons_other by exact Hx.
    destruct (split sep r) as [|l ls] eqn:S;
      [exfalso; exact (split_nonempty _ _ S)|].
    cbn [hd tl map rev].
    rewrite removelast_last, last_last. reflexivity.
Qed.

Lemma trimmed_rev s : trimmed s -> trimmed (rev s).
Proof.
  unfold trimmed, no_trailing_ws. rewrite rev_involutive. tauto.
Qed.

Lemma trimmed_nil : trimmed [].
Proof. split; exact I. Qed.

(** Cutting whitespace from the start of a text whose lines are trimmed can
    only remove empty lines. *)
Lemma lines_lstrip s :
  Forall trimmed (lines_of s) -> Forall trimmed (lines_of (lstrip s)).
Proof.
  unfold lines_of. induction s as [|x r IH]; intros H; [exact H|].
  simpl lstrip. destruct (isspace x) eqn:E; [|exact H].
  apply IH. destruct (N.eq_dec x nl) as [->|Hx].
  - rewrite split_cons_sep in H. inversion H; assumption.
  - rewrite split_cons_other in H by exact Hx.
    inversion H as [|? ? [Hl _] _]; subst. simpl in Hl. congruence.
Qed.

Lemma lines_rev s :
  Forall trimmed (lines_of s) -> Forall trimmed (lines_of (rev s)).
Proof.
  unfold lines_of. intros H. rewrite split_rev.
  apply Forall_rev, Forall_map.
  eapply Forall_impl; [|exact H]. apply trimmed_rev.
Qed.

Lemma lines_rstrip s :
  Forall trimmed (lines_of s) -> Forall trimmed (lines_of (rstrip s)).
Proof.
  intros H. unfold rstrip. apply lines_rev, lines_lstrip, lines_rev, H.
Qed.

Lemma lines_strip s :
  Forall trimmed (lines_of s) -> Forall trimmed (lines_of (strip s)).
Proof.
  intros H. unfold strip. apply lines_lstrip, lines_rstrip, H.
Qed.

(** After step 3 every line is trimmed and the lines are the stripped
    lines of the input. *)
Lemma lines_strip_lines s :
  lines_of (strip_lines s) = map strip (lines_of s).
Proof.
  unfold lines_of, strip_lines. apply split_join.
  - intros H. apply map_eq_nil in H. exact (split_nonempty _ _ H).
  - apply Forall_map.
    eapply Forall_impl; [|apply split_pieces].
    intros l Hl Hin. apply Hl. apply In_strip. exact Hin.
Qed.

Lemma strip_lines_trimmed s : Forall trimmed (lines_of (strip_lines s)).
Proof.
  rewrite lines_strip_lines. apply Forall_map, Forall_forall.
  intros l _. apply strip_trimmed.
Qed.

Lemma clean_text_lines s : Forall trimmed (lines_of (clean_text s)).
Proof.
  unfold clean_text.
  apply lines_strip.
  exact (strip_lines_trimmed (collapse_newlines (collapse_spaces s))).
Qed.

End LineFacts.

(** C5: every line of the output of [clean_text] (the segments between
    newline characters, the first and the last included) has no leading and
    no trailing whitespace. *)
Theorem clean_text_lines_trimmed (s : str) :
  Forall (fun l => no_leading_ws l /\ no_trailing_ws l)
         (lines_of (clean_text s)).
Proof.
  exact (clean_text_lines s).
Qed.

Section RunFacts.

Lemma has_run_sub c k a s b : has_run c k s -> has_run c k (a ++ s ++ b).
Proof.
  intros [u [v ->]]. exists (a ++ u), (v ++ b).
  repeat rewrite <- app_assoc. reflexivity.
Qed.

Lemma no_double_weaken c s :
  no_double c true s = true -> no_double c false s = true.
Proof.
  destruct s as [|x r]; simpl; [reflexivity|].
  destruct (x =? c)%N; simpl; [discriminate | auto].
Qed.

Lemma no_double_run c a b prev :
  no_double c prev (a ++ c :: c :: b) = false.
Proof.
  revert prev. induction a as [|x r IH]; intros prev; simpl.
  - rewrite N.eqb_refl. simpl. apply andb_false_r.
  - destruct (x =? c)%N; rewrite IH; [apply andb_false_r | reflexivity].
Qed.

Lemma no_double_sound c s :
  no_double c false s = true -> ~ has_run c 2 s.
Proof.
  intros H [a [b ->]]. simpl in H. rewrite no_double_run in H. discriminate.
Qed.

Lemma no_double_complete_at c s prev :
  no_double c prev s = false ->
  has_run c 2 s \/ (prev = true /\ exists r, s = c :: r).
Proof.
  revert prev. induction s as [|x r IH]; intros prev; simpl; [discriminate|].
  destruct (x =? c)%N eqn:E.
  - apply N.eqb_eq in E. subst x.
    destruct prev; simpl.
    + intros _. right. split; [reflexivity | eexists; reflexivity].
    + intros H. left. destruct (IH true H) as [Hr | [_ [r' ->]]].
      * apply (has_run_sub c 2 [c] r []) in Hr.
        rewrite app_nil_r in Hr. exact Hr.
      * exists [], r'. reflexivity.
  - intros H. left. destruct (IH false H) as [Hr | [Hf _]]; [|discriminate].
    apply (has_run_sub c 2 [x] r []) in Hr.
    rewrite app_nil_r in Hr. exact Hr.
Qed.

Lemma no_double_complete c s :
  ~ has_run c 2 s -> no_double c false s = true.
Proof.
  intros H. destruct (no_double c false s) eqn:E; [reflexivity|].
  destruct (no_double_complete_at c s false E) as [Hr | [Hf _]];
    [contradiction | discriminate].
Qed.

(** A character other than [c] cuts the check in two. *)
Lemma no_double_app_other c x a b prev :
  x <> c ->
  no_double c prev (a ++ x :: b) = no_double c prev a && no_double c false b.
Proof.
  intros Hx. apply N.eqb_neq in Hx.
  revert prev. induction a as [|y r IH]; intros prev; simpl.
  - rewrite Hx. reflexivity.
  - destruct (y =? c)%N; rewrite IH; [apply andb_assoc | reflexivity].
Qed.

(** [re.sub(r' +', ' ', text)] leaves no two spaces in a row. *)
Lemma collapse_spaces_from_no_double k s :
  no_double sp false (sub_run_from sp 1 [sp] k s) = true.
Proof.
  revert k. induction s as [|x r IH]; intros k; simpl.
  - destruct k; reflexivity.
  - destruct (x =? sp)%N eqn:E; [apply IH|].
    destruct k; simpl; rewrite ?E; simpl; rewrite ?E; apply IH.
Qed.

(** Replacing runs of newlines does not bring two spaces together. *)
Lemma collapse_newlines_from_no_double s : forall k prev prev',
  no_double sp prev s = true ->
  (k = 0%nat -> prev' = prev) -> (k <> 0%nat -> prev = false) ->
  no_double sp prev' (sub_run_from nl 3 [nl; nl] k s) = true.
Proof.
  induction s as [|x r IH]; intros k prev prev' H H0 H1.
  - simpl. destruct k as [|[|[|k]]]; reflexivity.
  - cbn [sub_run_from]. destruct (x =? nl)%N eqn:E.
    + apply N.eqb_eq in E. subst x. simpl in H.
      apply (IH (S k) false prev'); [exact H | discriminate | reflexivity].
    + destruct k as [|k].
      * rewrite (H0 eq_refl). simpl in *.
        destruct (x =? sp)%N.
        -- apply andb_prop in H. destruct H as [-> H]. simpl.
           apply (IH 0%nat true true); [exact H | reflexivity | congruence].
        -- apply (IH 0%nat false false); [exact H | reflexivity | congruence].
      * rewrite (H1 (Nat.neq_succ_0 k)) in H.
        assert (G : no_double sp false (x :: sub_run_from nl 3 [nl; nl] 0 r)
                    = true).
        { simpl in *. destruct (x =? sp)%N; simpl in *.
          - apply (IH 0%nat true true); [exact H | reflexivity | congruence].
          - apply (IH 0%nat false false); [exact H | reflexivity | congruence]. }
        destruct k as [|[|k]]; simpl; simpl in G; exact G.
Qed.

End RunFacts.

Section CleanTextSpaces.

(** [strip] keeps a middle part of the text and drops whitespace around
    it. *)
Lemma strip_middle s :
  exists a b, s = a ++ strip s ++ b
              /\ forallb isspace a = true /\ forallb isspace b = true.
Proof.
  destruct (lstrip_suffix (rev s)) as [ws [Hr Hws]].
  destruct (lstrip_suffix (rstrip s)) as [ws' [Hl Hws']].
  exists ws', (rev ws). split; [|split].
  - rewrite app_assoc. change (strip s) with (lstrip (rstrip s)).
    rewrite <- Hl. unfold rstrip.
    rewrite <- rev_app_distr, <- Hr. symmetry. apply rev_involutive.
  - exact Hws'.
  - rewrite forallb_rev. exact Hws.
Qed.

Lemma strip_no_double s :
  no_double sp false s = true -> no_double sp false (strip s) = true.
Proof.
  intros H. apply no_double_complete. intros Hr.
  apply (no_double_sound _ _ H).
  destruct (strip_middle s) as [a [b [Hs _]]].
  rewrite Hs. apply has_run_sub. exact Hr.
Qed.

Lemma join_no_double ls :
  forallb (no_double sp false) ls = true ->
  no_double sp false (join nl ls) = true.
Proof.
  induction ls as [|l ls IH]; [reflexivity|].
  cbn [forallb]. intros H. apply andb_prop in H. destruct H as [Hl Hls].
  destruct ls as [|l' ls']; [exact Hl|].
  change (join nl (l :: l' :: ls')) with (l ++ nl :: join nl (l' :: ls')).
  rewrite no_double_app_other by discriminate.
  rewrite Hl, (IH Hls). reflexivity.
Qed.

Lemma split_no_double s :
  no_double sp false s = true ->
  forallb (no_double sp false) (split nl s) = true.
Proof.
  induction s as [|x r IH]; [reflexivity|].
  intros H. destruct (N.eq_dec x nl) as [->|Hx].
  - rewrite split_cons_sep. simpl in *. exact (IH H).
  - rewrite split_cons_other by exact Hx.
    destruct (split nl r) as [|l ls] eqn:S;
      [exfalso; exact (split_nonempty _ _ S)|].
    cbn [hd tl forallb] in *.
    assert (Hr : r = l ++ match ls with
                          | [] => []
                          | _ => nl :: join nl ls
                          end).
    { rewrite <- (join_split nl r), S. destruct ls; [|reflexivity].
      simpl. symmetry. apply app_nil_r. }
    destruct ls as [|l' ls'].
    + rewrite app_nil_r in Hr. subst l. rewrite H. reflexivity.
    + rewrite Hr in H. rewrite app_comm_cons in H.
      rewrite no_double_app_other in H by discriminate.
      apply andb_prop in H. destruct H as [H1 H2].
      rewrite H1. cbn [andb].
      assert (G : no_double sp false r = true).
      { rewrite Hr, no_double_app_other by discriminate.
        rewrite H2, andb_true_r.
        simpl in H1. destruct (x =? sp)%N; simpl in H1.
        - apply no_double_weaken. exact H1.
        - exact H1. }
      apply IH, andb_prop in G. exact (proj2 G).
Qed.

Lemma strip_lines_no_double s :
  no_double sp false s = true -> no_double sp false (strip_lines s) = true.
Proof.
  intros H. apply join_no_double.
  apply split_no_double in H.
  rewrite forallb_forall in *. intros l Hin.
  apply in_map_iff in Hin. destruct Hin as [l0 [<- Hin]].
  apply strip_no_double, H, Hin.
Qed.

Lemma clean_text_no_double s : no_double sp false (clean_text s) = true.
Proof.
  unfold clean_text.
  apply strip_no_double.
  apply (strip_lines_no_double (collapse_newlines (collapse_spaces s))).
  apply (collapse_newlines_from_no_double _ 0%nat false false);
    [| reflexivity | congruence].
  apply collapse_spaces_from_no_double.
Qed.

End CleanTextSpaces.

Section SubRunFacts.

Variables (c : codepoint) (m : nat) (repl : str).

(** A character other than [c] ends whatever run is being read. *)
Lemma sub_run_from_other k a x b :
  x <> c ->
  sub_run_from c m repl k (a ++ x :: b)
  = sub_run_from c m repl k a ++ x :: sub_run_from c m repl 0 b.
Proof.
  intros Hx. apply N.eqb_neq in Hx.
  revert k. induction a as [|y r IH]; intros k; cbn [app sub_run_from].
  - rewrite Hx. reflexivity.
  - destruct (y =? c)%N; rewrite IH; [reflexivity|].
    rewrite <- app_assoc. reflexivity.
Qed.

Lemma sub_run_from_repeat k j s :
  sub_run_from c m repl k (repeat c j ++ s)
  = sub_run_from c m repl (k + j) s.
Proof.
  revert k. induction j as [|j IH]; intros k; cbn [repeat app sub_run_from].
  - rewrite Nat.add_0_r. reflexivity.
  - rewrite N.eqb_refl, IH. f_equal. lia.
Qed.

Hypothesis m_pos : (1 <= m)%nat.

Lemma flush_0 : flush c m repl 0 = [].
Proof.
  unfold flush. destruct m; [lia | reflexivity].
Qed.

Lemma sub_run_absent s : ~ In c s -> sub_run c m repl s = s.
Proof.
  unfold sub_run. induction s as [|x r IH]; intros H; cbn [sub_run_from].
  - apply flush_0.
  - destruct (x =? c)%N eqn:E.
    + apply N.eqb_eq in E. subst. exfalso. apply H. left. reflexivity.
    + rewrite flush_0, IH; [reflexivity|].
      intros H'. apply H. right. exact H'.
Qed.

(** Cutting the text after a character other than [c] cuts the scan. *)
Lemma sub_run_app_other a x b :
  x <> c ->
  sub_run c m repl (a ++ x :: b)
  = sub_run c m repl (a ++ [x]) ++ sub_run c m repl b.
Proof.
  intros Hx. unfold sub_run.
  rewrite !sub_run_from_other by exact Hx.
  cbn [sub_run_from]. rewrite flush_0, <- app_assoc. reflexivity.
Qed.

(** A maximal run in front of the text. *)
Lemma sub_run_leading j x b :
  x <> c ->
  sub_run c m repl (repeat c j ++ x :: b)
  = flush c m repl j ++ sub_run c m repl (x :: b).
Proof.
  intros Hx. unfold sub_run. rewrite sub_run_from_repeat.
  apply N.eqb_neq in Hx. cbn [sub_run_from Nat.add]. rewrite Hx, flush_0.
  reflexivity.
Qed.

(** The scan only writes characters it read, [c] or the replacement. *)
Lemma sub_run_from_chars (P : codepoint -> Prop) k s :
  P c -> Forall P repl -> Forall P s ->
  Forall P (sub_run_from c m repl k s).
Proof.
  intros Hc Hrepl. 
  assert (Hf : forall j, Forall P (flush c m repl j)).
  { intros j. unfold flush. destruct (m <=? j)%nat; [exact Hrepl|].
    apply Forall_forall. intros y Hy. apply repeat_spec in Hy.
    subst. exact Hc. }
  revert k. induction s as [|x r IH]; intros k Hs; cbn [sub_run_from].
  - apply Hf.
  - inversion Hs; subst. destruct (x =? c)%N; [apply IH; assumption|].
    apply Forall_app. split; [apply Hf|].
    constructor; [assumption | apply IH; assumption].
Qed.

End SubRunFacts.

Section TextEnds.

Lemma first_line_text s : blank (first_line s) = false -> starts_in_text s.
Proof.
  unfold first_line, lines_of, blank.
  induction s as [|x r IH]; [discriminate|].
  destruct (N.eq_dec x nl) as [->|Hx].
  - rewrite split_cons_sep. discriminate.
  - rewrite split_cons_other by exact Hx. cbn [hd forallb].
    destruct (isspace x) eqn:E; cbn [andb].
    + intros H. destruct (IH H) as [v [y [b [-> [Hy Hv]]]]].
      exists (x :: v), y, b. split; [reflexivity|]. split; [exact Hy|].
      constructor; [split; assumption | exact Hv].
    + intros _. exists [], x, r. split; [reflexivity|].
      split; [exact E | constructor].
Qed.

Lemma hd_rev_last (ls : list str) : hd [] (rev ls) = last ls [].
Proof.
  induction ls as [|l ls IH] using rev_ind; [reflexivity|].
  rewrite rev_app_distr, last_last. reflexivity.
Qed.

Lemma last_map_rev (ls : list str) :
  last (map (@rev codepoint) ls) [] = rev (last ls []).
Proof.
  induction ls as [|l ls IH] using rev_ind; [reflexivity|].
  rewrite map_app. cbn [map]. rewrite !last_last. reflexivity.
Qed.

Lemma hd_rev_map_rev (ls : list str) :
  hd [] (rev (map (@rev codepoint) ls)) = rev (last ls []).
Proof.
  rewrite hd_rev_last. apply last_map_rev.
Qed.

Lemma starts_ends_rev s : starts_in_text (rev s) -> ends_in_text s.
Proof.
  intros [v [y [b [Hs [Hy Hv]]]]].
  exists (rev b), y, (rev v). split; [|split].
  - rewrite <- (rev_involutive s), Hs, rev_app_distr. cbn [rev].
    rewrite <- app_assoc. reflexivity.
  - exact Hy.
  - apply Forall_rev. exact Hv.
Qed.

Lemma last_line_text s : blank (last_line s) = false -> ends_in_text s.
Proof.
  intros H. apply starts_ends_rev, first_line_text.
  unfold first_line, last_line, lines_of, blank in *.
  rewrite split_rev, hd_rev_map_rev, forallb_rev. exact H.
Qed.

Lemma inline_ws_blank u : Forall inline_ws u -> forallb isspace u = true.
Proof.
  intros H. apply forallb_forall. rewrite Forall_forall in H.
  intros x Hx. exact (proj1 (H x Hx)).
Qed.

Lemma inline_ws_no_nl u : Forall inline_ws u -> ~ In nl u.
Proof.
  intros H Hin. rewrite Forall_forall in H.
  exact (proj2 (H nl Hin) eq_refl).
Qed.

Lemma not_space_not_nl x : isspace x = false -> x <> nl.
Proof. intros H ->. discriminate. Qed.

Lemma not_space_not_sp x : isspace x = false -> x <> sp.
Proof. intros H ->. discriminate. Qed.

(** A text that ends in a line with text ends with a character that is not
    a newline. *)
Lemma ends_in_text_last s :
  ends_in_text s -> exists s' z, s = s' ++ [z] /\ z <> nl.
Proof.
  intros [a [x [u [-> [Hx Hu]]]]].
  destruct (exists_last (l := x :: u)) as [s' [z Hz]]; [discriminate|].
  exists (a ++ s'), z. split.
  - rewrite <- app_assoc, <- Hz. reflexivity.
  - destruct u as [|u0 u'] using rev_ind.
    + destruct s' as [|? [|? ?]]; try discriminate.
      injection Hz as ->. apply not_space_not_nl, Hx.
    + clear IHu'. rewrite app_comm_cons in Hz.
      apply app_inj_tail in Hz. destruct Hz as [_ <-].
      apply Forall_app in Hu. destruct Hu as [_ Hu].
      inversion Hu as [|? ? [_ Hn] _]; subst. exact Hn.
Qed.

Lemma starts_in_text_first s :
  starts_in_text s -> exists z s', s = z :: s' /\ z <> nl.
Proof.
  intros [v [y [b [-> [Hy Hv]]]]].
  destruct v as [|v0 v'].
  - exists y, b. split; [reflexivity | apply not_space_not_nl, Hy].
  - exists v0, (v' ++ y :: b). split; [reflexivity|].
    inversion Hv as [|? ? [_ Hn] _]; subst. exact Hn.
Qed.

End TextEnds.

Section StripEnds.

Lemma lstrip_snoc l x :
  isspace x = false -> exists t, lstrip (l ++ [x]) = t ++ [x].
Proof.
  intros Hx. induction l as [|y r [t IH]]; cbn [app lstrip].
  - rewrite Hx. exists []. reflexivity.
  - destruct (isspace y).
    + exists t. exact IH.
    + exists (y :: r). reflexivity.
Qed.

Lemma lstrip_keep p y q :
  isspace y = false -> exists t, lstrip (p ++ y :: q) = t ++ y :: q.
Proof.
  intros Hy. induction p as [|z r [t IH]]; cbn [app lstrip].
  - rewrite Hy. exists []. reflexivity.
  - destruct (isspace z).
    + exists t. exact IH.
    + exists (z :: r). reflexivity.
Qed.

Lemma rstrip_keep a y b :
  isspace y = false -> exists b', rstrip (a ++ y :: b) = a ++ y :: b'.
Proof.
  intros Hy. unfold rstrip.
  rewrite rev_app_distr. cbn [rev]. rewrite <- app_assoc. cbn [app].
  destruct (lstrip_keep (rev b) y (rev a) Hy) as [t ->].
  exists (rev t). rewrite rev_app_distr. cbn [rev].
  rewrite rev_involutive, <- app_assoc. reflexivity.
Qed.

Lemma rstrip_text_blank l x u :
  isspace x = false -> forallb isspace u = true ->
  rstrip (l ++ x :: u) = l ++ [x].
Proof.
  intros Hx Hu. unfold rstrip.
  rewrite rev_app_distr. cbn [rev]. rewrite <- app_assoc. cbn [app].
  rewrite lstrip_app_blank by (rewrite forallb_rev; exact Hu).
  cbn [lstrip]. rewrite Hx. cbn [rev]. rewrite rev_involutive. reflexivity.
Qed.

Lemma lstrip_app_text a b : lstrip a <> [] -> lstrip (a ++ b) = lstrip a ++ b.
Proof.
  induction a as [|x r IH]; cbn [app lstrip]; [congruence|].
  destruct (isspace x); [exact IH | reflexivity].
Qed.

Lemma rstrip_app_text a b : rstrip b <> [] -> rstrip (a ++ b) = a ++ rstrip b.
Proof.
  unfold rstrip. intros H.
  rewrite rev_app_distr, lstrip_app_text.
  - rewrite rev_app_distr, rev_involutive. reflexivity.
  - intros E. apply H. rewrite E. reflexivity.
Qed.

(** The first and the last piece of a text that is cut where no separator
    is. *)
Lemma split_last_app sep a w :
  ~ In sep w ->
  split sep (a ++ w)
  = removelast (split sep a) ++ [last (split sep a) [] ++ w].
Proof.
  intros Hw. induction a as [|y r IH].
  - cbn [app]. rewrite split_no_sep by exact Hw. reflexivity.
  - cbn [app split]. rewrite IH.
    destruct (split sep r) as [|l ls] eqn:S;
      [exfalso; exact (split_nonempty _ _ S)|].
    destruct (y =? sep)%N.
    + destruct ls; reflexivity.
    + destruct ls as [|l' ls']; reflexivity.
Qed.

Lemma split_first_app sep w b :
  ~ In sep w ->
  split sep (w ++ b) = (w ++ hd [] (split sep b)) :: tl (split sep b).
Proof.
  induction w as [|x r IH]; intros Hw.
  - cbn [app]. destruct (split sep b) eqn:S;
      [exfalso; exact (split_nonempty _ _ S) | reflexivity].
  - cbn [app]. rewrite split_cons_other.
    + rewrite IH; [reflexivity|]. intros H. apply Hw. right. exact H.
    + intros ->. apply Hw. left. reflexivity.
Qed.

(** Step 3 on a text that ends in a line with text ends with that text. *)
Lemma strip_lines_ends s :
  ends_in_text s ->
  exists w x, strip_lines s = w ++ [x] /\ isspace x = false.
Proof.
  intros [a [x [u [-> [Hx Hu]]]]]. unfold strip_lines.
  assert (Hn : ~ In nl (x :: u)).
  { intros [H|H]; [exact (not_space_not_nl x Hx H)|].
    exact (inline_ws_no_nl u Hu H). }
  rewrite (split_last_app nl a (x :: u) Hn), map_app. cbn [map].
  unfold strip at 2.
  rewrite rstrip_text_blank by (auto using inline_ws_blank).
  destruct (lstrip_snoc (last (split nl a) []) x Hx) as [t Ht].
  rewrite Ht.
  destruct (map strip (removelast (split nl a))) as [|l0 ls0] eqn:E.
  - exists t, x. split; [reflexivity | exact Hx].
  - rewrite join_app by discriminate. cbn [join].
    exists (join nl (l0 :: ls0) ++ nl :: t), x. split; [|exact Hx].
    rewrite <- app_assoc. reflexivity.
Qed.

(** Step 3 on a text that starts in a line with text starts with that
    text. *)
Lemma strip_lines_starts s :
  starts_in_text s ->
  exists y w, strip_lines s = y :: w /\ isspace y = false.
Proof.
  intros [v [y [b [-> [Hy Hv]]]]]. unfold strip_lines.
  rewrite (split_first_app nl v (y :: b) (inline_ws_no_nl v Hv)).
  rewrite split_cons_other by (apply not_space_not_nl, Hy).
  cbn [hd tl map].
  destruct (rstrip_keep v y (hd [] (split nl b)) Hy) as [b' Hb'].
  unfold strip at 1. rewrite Hb'.
  rewrite lstrip_app_blank by (apply inline_ws_blank, Hv).
  cbn [lstrip]. rewrite Hy.
  destruct (map strip (tl (split nl b))) as [|l0 ls0].
  - exists y, b'. split; [reflexivity | exact Hy].
  - exists y, (b' ++ nl :: join nl (l0 :: ls0)).
    split; [reflexivity | exact Hy].
Qed.

(** Step 3 works line by line, so it passes over an empty line. *)
Lemma strip_lines_blank_line a b :
  strip_lines (a ++ [nl; nl] ++ b)
  = strip_lines a ++ [nl; nl] ++ strip_lines b.
Proof.
  unfold strip_lines. cbn [app].
  rewrite split_app_sep, split_cons_sep, map_app. cbn [map].
  rewrite join_app.
  - destruct (map strip (split nl b)) as [|l0 ls0] eqn:E.
    + apply map_eq_nil in E. exfalso. exact (split_nonempty _ _ E).
    + reflexivity.
  - intros E. apply map_eq_nil in E. exact (split_nonempty _ _ E).
  - discriminate.
Qed.

(** The last step on two texts with a blank line between them. *)
Lemma strip_around_blank_line w x y w' :
  isspace x = false -> isspace y = false ->
  strip ((w ++ [x]) ++ [nl; nl] ++ y :: w')
  = strip (w ++ [x]) ++ [nl; nl] ++ strip (y :: w').
Proof.
  intros Hx Hy.
  destruct (rstrip_keep [] y w' Hy) as [b' Hb']. cbn [app] in Hb'.
  destruct (lstrip_snoc w x Hx) as [t Ht].
  assert (Ha : rstrip (w ++ [x]) = w ++ [x]).
  { apply rstrip_fixed. unfold no_trailing_ws.
    rewrite rev_app_distr. exact Hx. }
  unfold strip. rewrite Ha, Hb'.
  rewrite app_assoc, rstrip_app_text by (rewrite Hb'; discriminate).
  rewrite Hb', <- app_assoc.
  rewrite lstrip_app_text
    by (rewrite Ht; intros E; apply app_eq_nil in E;
        destruct E; discriminate).
  f_equal. cbn [app lstrip]. rewrite Hy. reflexivity.
Qed.

End StripEnds.

Section NewlineRuns.

Lemma collapse_spaces_newlines j s :
  collapse_spaces (repeat nl j ++ s) = repeat nl j ++ collapse_spaces s.
Proof.
  unfold collapse_spaces, sub_run.
  induction j as [|j IH]; [reflexivity|].
  cbn [repeat app sub_run_from]. change (nl =? sp)%N with false.
  cbn [flush Nat.leb repeat app]. rewrite IH. reflexivity.
Qed.

(** Step 1 does not look across a newline. *)
Lemma collapse_spaces_around j a b :
  collapse_spaces (a ++ repeat nl (S j) ++ b)
  = collapse_spaces a ++ repeat nl (S j) ++ collapse_spaces b.
Proof.
  cbn [repeat app]. unfold collapse_spaces at 1 2. unfold sub_run.
  rewrite sub_run_from_other by discriminate.
  fold (sub_run sp 1 [sp] (repeat nl j ++ b)).
  fold collapse_spaces. rewrite collapse_spaces_newlines. reflexivity.
Qed.

Lemma collapse_spaces_inline u :
  Forall inline_ws u -> Forall inline_ws (collapse_spaces u).
Proof.
  intros H. apply sub_run_from_chars; [| |exact H].
  - split; [reflexivity | discriminate].
  - constructor; [|constructor]. split; [reflexivity | discriminate].
Qed.

Lemma collapse_spaces_ends s : ends_in_text s -> ends_in_text (collapse_spaces s).
Proof.
  intros [a [x [u [-> [Hx Hu]]]]].
  unfold collapse_spaces, sub_run.
  rewrite sub_run_from_other by (apply not_space_not_sp, Hx).
  eexists _, x, _. split; [reflexivity|]. split; [exact Hx|].
  apply collapse_spaces_inline, Hu.
Qed.

Lemma collapse_spaces_starts s :
  starts_in_text s -> starts_in_text (collapse_spaces s).
Proof.
  intros [v [y [b [-> [Hy Hv]]]]].
  unfold collapse_spaces, sub_run.
  rewrite sub_run_from_other by (apply not_space_not_sp, Hy).
  eexists _, y, _. split; [reflexivity|]. split; [exact Hy|].
  apply collapse_spaces_inline, Hv.
Qed.

Lemma collapse_newlines_inline u :
  Forall inline_ws u -> collapse_newlines u = u.
Proof.
  intros H. apply sub_run_absent; [lia | apply inline_ws_no_nl, H].
Qed.

Lemma collapse_newlines_ends s :
  ends_in_text s -> ends_in_text (collapse_newlines s).
Proof.
  intros [a [x [u [-> [Hx Hu]]]]].
  unfold collapse_newlines, sub_run.
  rewrite sub_run_from_other by (apply not_space_not_nl, Hx).
  eexists _, x, _. split; [reflexivity|]. split; [exact Hx|].
  fold (sub_run nl 3 [nl; nl] u). fold (collapse_newlines u).
  rewrite collapse_newlines_inline; exact Hu.
Qed.

Lemma collapse_newlines_starts s :
  starts_in_text s -> starts_in_text (collapse_newlines s).
Proof.
  intros [v [y [b [-> [Hy Hv]]]]].
  unfold collapse_newlines, sub_run.
  rewrite sub_run_from_other by (apply not_space_not_nl, Hy).
  eexists _, y, _. split; [reflexivity|]. split; [exact Hy|].
  fold (sub_run nl 3 [nl; nl] v). fold (collapse_newlines v).
  rewrite collapse_newlines_inline; exact Hv.
Qed.

(** Step 2 on a run of three or more newlines between two lines of text. *)
Lemma collapse_newlines_run n a b :
  (3 <= n)%nat -> ends_in_text a -> starts_in_text b ->
  collapse_newlines (a ++ repeat nl n ++ b)
  = collapse_newlines a ++ [nl; nl] ++ collapse_newlines b.
Proof.
  intros Hn Ha Hb.
  destruct (ends_in_text_last a Ha) as [a' [z [-> Hz]]].
  destruct (starts_in_text_first b Hb) as [q [b' [-> Hq]]].
  unfold collapse_newlines.
  rewrite <- app_assoc. cbn [app].
  rewrite sub_run_app_other by (lia || exact Hz).
  rewrite sub_run_leading by (lia || exact Hq).
  unfold flush. destruct (Nat.leb_spec 3 n); [reflexivity | lia].
Qed.

Lemma clean_text_run n pre post :
  (3 <= n)%nat -> ends_in_text pre -> starts_in_text post ->
  clean_text (pre ++ repeat nl n ++ post)
  = clean_text pre ++ [nl; nl] ++ clean_text post
  /\ last (clean_text pre) nl <> nl
  /\ hd nl (clean_text post) <> nl.
Proof.
  intros Hn Hpre Hpost.
  assert (Ha := collapse_newlines_ends _ (collapse_spaces_ends _ Hpre)).
  assert (Hb := collapse_newlines_starts _ (collapse_spaces_starts _ Hpost)).
  destruct (strip_lines_ends _ Ha) as [w [x [Hw Hx]]].
  destruct (strip_lines_starts _ Hb) as [y [w' [Hw' Hy]]].
  assert (Ec : clean_text pre = strip (w ++ [x]))
    by (unfold clean_text; fold (strip_lines
          (collapse_newlines (collapse_spaces pre))); rewrite Hw; reflexivity).
  assert (Ed : clean_text post = strip (y :: w'))
    by (unfold clean_text; fold (strip_lines
          (collapse_newlines (collapse_spaces post))); rewrite Hw'; reflexivity).
  split; [|split].
  - rewrite Ec, Ed.
    change (clean_text (pre ++ repeat nl n ++ post))
      with (strip (strip_lines (collapse_newlines
              (collapse_spaces (pre ++ repeat nl n ++ post))))).
    destruct n as [|j]; [lia|].
    rewrite collapse_spaces_around.
    rewrite collapse_newlines_run
      by auto using collapse_spaces_ends, collapse_spaces_starts.
    rewrite strip_lines_blank_line, Hw, Hw'.
    apply strip_around_blank_line; assumption.
  - rewrite Ec. unfold strip.
    rewrite rstrip_fixed
      by (unfold no_trailing_ws; rewrite rev_app_distr; exact Hx).
    destruct (lstrip_snoc w x Hx) as [t ->]. rewrite last_last.
    apply not_space_not_nl, Hx.
  - rewrite Ed. unfold strip.
    destruct (rstrip_keep [] y w' Hy) as [b' Hb']. cbn [app] in Hb'.
    rewrite Hb'. cbn [lstrip]. rewrite Hy. cbn [hd].
    apply not_space_not_nl, Hy.
Qed.

End NewlineRuns.

(** C4, as the code has it: the output of [clean_text] never holds two
    spaces in a row; and a run of three or more newlines of the input comes
    out as exactly two newlines at that place when the line before the run
    and the line after it each hold a non-whitespace character: the output
    is then the normalized text before the run, two newlines, and the
    normalized text after it, with no further newline on either side. *)
Theorem clean_text_whitespace_collapse :
  (forall s : str, ~ has_run sp 2 (clean_text s))
  /\ (forall (pre post : str) (n : nat),
        (3 <= n)%nat ->
        blank (last_line pre) = false ->
        blank (first_line post) = false ->
        clean_text (pre ++ repeat nl n ++ post)
        = clean_text pre ++ [nl; nl] ++ clean_text post
        /\ last (clean_text pre) nl <> nl
        /\ hd nl (clean_text post) <> nl).
Proof.
  split.
  - intros s. apply no_double_sound, clean_text_no_double.
  - intros pre post n Hn Hpre Hpost.
    apply clean_text_run;
      [exact Hn | apply last_line_text, Hpre | apply first_line_text, Hpost].
Qed.

Lemma clean_text_whitespace_collapse_witness :
  clean_text (py "Hola   mundo" ++ repeat nl 4 ++ py "Adios")
  = clean_text (py "Hola   mundo") ++ [nl; nl] ++ clean_text (py "Adios")
  /\ last (clean_text (py "Hola   mundo")) nl <> nl
  /\ hd nl (clean_text (py "Adios")) <> nl.
Proof.
  apply (proj2 clean_text_whitespace_collapse
           (py "Hola   mundo") (py "Adios") 4%nat);
    [lia | reflexivity | reflexivity].
Defined.

(** C4 as stated fails: a run of three newlines at the start of the input
    is removed whole by the final [strip], and the output holds no newline
    at all. *)
Lemma clean_text_leading_run_removed :
  clean_text (repeat nl 3 ++ py "a") = py "a"
  /\ ~ (exists x y : str,
          clean_text (repeat nl 3 ++ py "a") = x ++ [nl; nl] ++ y).
Proof.
  split; [reflexivity|].
  intros [x [y H]].
  assert (Hin : In nl (clean_text (repeat nl 3 ++ py "a"))).
  { rewrite H. apply in_or_app. right. left. reflexivity. }
  vm_compute in Hin. destruct Hin as [Hin|[]]. discriminate.
Qed.

Section SecondPass.

(** Where no run reaches [m] characters the substitution changes
    nothing. *)
Lemma sub_run_from_run_free c m repl s : forall k,
  (k < m)%nat -> run_free c m k s = true ->
  sub_run_from c m repl k s = repeat c k ++ s.
Proof.
  induction s as [|x r IH]; intros k Hk H; cbn [sub_run_from].
  - unfold flush. destruct (Nat.leb_spec m k); [lia|].
    symmetry. apply app_nil_r.
  - cbn [run_free] in H. destruct (x =? c)%N eqn:E.
    + apply N.eqb_eq in E. subst x.
      apply andb_prop in H. destruct H as [H1 H2].
      apply Nat.ltb_lt in H1.
      rewrite (IH (S k) H1 H2).
      change (repeat c (S k)) with (c :: repeat c k).
      rewrite repeat_cons, <- app_assoc. reflexivity.
    + unfold flush. destruct (Nat.leb_spec m k); [lia|].
      rewrite (IH 0%nat); [reflexivity | lia | exact H].
Qed.

Lemma run_free_complete_at c m s : forall k,
  run_free c m k s = false ->
  has_run c m s \/ exists j b, s = repeat c j ++ b /\ (m <= k + j)%nat.
Proof.
  induction s as [|x r IH]; intros k; cbn [run_free]; [discriminate|].
  destruct (x =? c)%N eqn:E.
  - apply N.eqb_eq in E. subst x.
    destruct (Nat.ltb_spec (S k) m) as [Hlt|Hge]; cbn [andb].
    + intros H. destruct (IH (S k) H) as [Hr | [j [b [-> Hj]]]].
      * left. apply (has_run_sub c m [c] r []) in Hr.
        rewrite app_nil_r in Hr. exact Hr.
      * right. exists (S j), b. split; [reflexivity | lia].
    + intros _. right. exists 1%nat, r. split; [reflexivity | lia].
  - intros H. left. destruct (IH 0%nat H) as [Hr | [j [b [-> Hj]]]].
    + apply (has_run_sub c m [x] r []) in Hr.
      rewrite app_nil_r in Hr. exact Hr.
    + exists [x], (repeat c (j - m) ++ b).
      cbn [app]. f_equal. rewrite app_assoc, <- repeat_app.
      f_equal. f_equal. lia.
Qed.

Lemma run_free_complete c m s :
  (1 <= m)%nat -> ~ has_run c m s -> run_free c m 0 s = true.
Proof.
  intros Hm H. destruct (run_free c m 0 s) eqn:E; [reflexivity|].
  destruct (run_free_complete_at c m s 0 E) as [Hr | [j [b [-> Hj]]]];
    [contradiction|].
  exfalso. apply H. exists [], (repeat c (j - m) ++ b).
  cbn [app]. rewrite app_assoc, <- repeat_app. f_equal. f_equal. lia.
Qed.

Lemma sub_run_run_free c m repl s :
  (1 <= m)%nat -> ~ has_run c m s -> sub_run c m repl s = s.
Proof.
  intros Hm H. unfold sub_run.
  apply (sub_run_from_run_free c m repl s 0); [lia|].
  apply run_free_complete; assumption.
Qed.

(** Single spaces are replaced by themselves. *)
Lemma collapse_spaces_from_single s : forall k,
  (k <= 1)%nat ->
  no_double sp (0 <? k)%nat s = true ->
  sub_run_from sp 1 [sp] k s = repeat sp k ++ s.
Proof.
  induction s as [|x r IH]; intros k Hk H; cbn [sub_run_from].
  - destruct k as [|[|k]]; [reflexivity | reflexivity | lia].
  - cbn [no_double] in H. destruct (x =? sp)%N eqn:E.
    + apply N.eqb_eq in E. subst x.
      destruct k as [|[|k]]; [|discriminate|lia].
      cbn [Nat.ltb Nat.leb negb andb] in H.
      rewrite (IH 1%nat); [reflexivity | lia | exact H].
    + rewrite (IH 0%nat); [|lia|exact H].
      destruct k as [|[|k]]; [reflexivity | reflexivity | lia].
Qed.

Lemma collapse_spaces_single s :
  no_double sp false s = true -> collapse_spaces s = s.
Proof.
  intros H. apply (collapse_spaces_from_single s 0); [lia | exact H].
Qed.

Lemma strip_lines_fixed s :
  Forall trimmed (lines_of s) -> strip_lines s = s.
Proof.
  intros H. unfold strip_lines.
  rewrite <- (join_split nl s) at 2. f_equal.
  rewrite <- (map_id (split nl s)) at 2.
  apply map_ext_in. intros l Hl. apply strip_fixed.
  rewrite Forall_forall in H. apply H, Hl.
Qed.

(** A second pass over a normalized text can only change it at a run of
    three or more newlines. *)
Lemma clean_text_second_pass s :
  ~ has_run nl 3 (clean_text s) ->
  clean_text (clean_text s) = clean_text s.
Proof.
  intros H.
  change (clean_text (clean_text s))
    with (strip (strip_lines (collapse_newlines
            (collapse_spaces (clean_text s))))).
  rewrite (collapse_spaces_single _ (clean_text_no_double s)).
  unfold collapse_newlines. rewrite sub_run_run_free by (lia || exact H).
  rewrite strip_lines_fixed by apply clean_text_lines.
  apply strip_fixed. unfold clean_text. apply strip_trimmed.
Qed.

End SecondPass.

(** C2 fails on the code: lines that hold only whitespace are emptied
    after the runs of newlines were cut down, so the output can hold three
    newlines in a row, and a second pass cuts them to two. *)
Theorem clean_text_not_idempotent_here :
  let s := py "a" ++ [nl; sp; nl; sp; nl] ++ py "b" in
  clean_text s = py "a" ++ [nl; nl; nl] ++ py "b"
  /\ clean_text (clean_text s) = py "a" ++ [nl; nl] ++ py "b"
  /\ clean_text (clean_text s) <> clean_text s.
Proof.
  cbv zeta. split; [reflexivity|]. split; [reflexivity|].
  vm_compute. discriminate.
Qed.

(* ================================================================== *)
(** * Facts about the raster operations *)
(* ================================================================== *)

Section RasterFacts.

Open Scope Z_scope.

Lemma clip8_ok v : sample_ok (clip8 v).
Proof.
  unfold sample_ok, clip8.
  destruct (Z.leb_spec v 0); [lia|].
  destruct (Z.leb_spec 255 v); lia.
Qed.

Lemma luma_weights_ok r g b :
  sample_ok r -> sample_ok g -> sample_ok b ->
  sample_ok (Z.shiftr (r * 19595 + g * 38470 + b * 7471 + 32768) 16).
Proof.
  unfold sample_ok. intros Hr Hg Hb.
  rewrite Z.shiftr_div_pow2 by lia.
  change (2 ^ 16) with 65536.
  split.
  - apply Z.div_pos; lia.
  - apply Z.lt_succ_r, Z.div_lt_upper_bound; lia.
Qed.

Lemma luma_ok m p : pixel_ok m p -> sample_ok (luma m p).
Proof.
  intros [Hlen Hp].
  destruct m; cbn [bands] in Hlen;
    repeat (destruct p as [|? p]; try discriminate Hlen);
    cbn [luma];
    repeat match goal with
           | H : Forall _ (_ :: _) |- _ => inversion H; subst; clear H
           end;
    auto using luma_weights_ok.
Qed.

Lemma convert_L_valid img : valid img -> valid (convert_L img).
Proof.
  intros [Hlen Hpix]. split; cbn [convert_L data width height mode].
  - rewrite length_map. exact Hlen.
  - apply Forall_map. eapply Forall_impl; [|exact Hpix].
    intros p Hp. split; [reflexivity|].
    constructor; [apply luma_ok, Hp | constructor].
Qed.

Lemma enhance_contrast_valid factor img :
  valid img -> valid (enhance_contrast factor img).
Proof.
  intros [Hlen Hpix].
  split; cbn [enhance_contrast data width height mode].
  - rewrite length_map. exact Hlen.
  - apply Forall_map. eapply Forall_impl; [|exact Hpix].
    intros p [Hp _]. split.
    + rewrite length_map. exact Hp.
    + apply Forall_map, Forall_forall. intros v _. apply clip8_ok.
Qed.

Lemma getpixel_ok img x y : valid img -> sample_ok (getpixel img x y).
Proof.
  intros [_ Hpix]. unfold getpixel.
  destruct (nth_in_or_default (y * width img + x) (data img) [])
    as [Hin | ->].
  - rewrite Forall_forall in Hpix. destruct (Hpix _ Hin) as [_ Hp].
    destruct (nth _ _ _) as [|v ?]; cbn [grey].
    + unfold sample_ok. lia.
    + inversion Hp; assumption.
  - unfold sample_ok. cbn [grey]. lia.
Qed.

Lemma sharpen_at_ok img x y : valid img -> sample_ok (sharpen_at img x y).
Proof.
  intros H. unfold sharpen_at.
  destruct (_ || _)%bool; [apply getpixel_ok, H | apply clip8_ok].
Qed.

Lemma filter_SHARPEN_valid img :
  valid img -> mode img = L -> valid (filter_SHARPEN img).
Proof.
  intros H Hm. split; cbn [filter_SHARPEN data width height mode].
  - rewrite length_map, length_seq. exact (proj1 H).
  - apply Forall_map, Forall_forall. intros i _. rewrite Hm.
    split; [reflexivity|].
    constructor; [apply sharpen_at_ok, H | constructor].
Qed.

End RasterFacts.

(** C6: on a valid raster of width W and height H, both at least 1 and in
    any colour mode, [preprocess_image] returns a single-channel greyscale
    raster of width W and height H: W * H pixels of one sample each, every
    sample a byte. *)
Theorem preprocess_image_greyscale_same_size (img : Image) (W H : nat) :
  valid img ->
  size img = (W, H) -> (1 <= W)%nat -> (1 <= H)%nat ->
  mode (preprocess_image img) = L
  /\ size (preprocess_image img) = (W, H)
  /\ valid (preprocess_image img)
  /\ List.length (data (preprocess_image img)) = (W * H)%nat
  /\ Forall (fun p => exists v, p = [v] /\ (0 <= v <= 255)%Z)
            (data (preprocess_image img)).
Proof.
  intros Hv Hsize _ _.
  assert (Hout : valid (preprocess_image img)).
  { unfold preprocess_image.
    apply filter_SHARPEN_valid; [|reflexivity].
    apply enhance_contrast_valid, convert_L_valid, Hv. }
  assert (Hs : size (preprocess_image img) = (W, H)) by exact Hsize.
  split; [reflexivity|]. split; [exact Hs|]. split; [exact Hout|].
  destruct Hout as [Hlen Hpix]. split.
  - rewrite Hlen. unfold size in Hsize. injection Hsize as Hw Hh.
    change ((width img * height img)%nat = (W * H)%nat).
    rewrite Hw, Hh. reflexivity.
  - eapply Forall_impl; [|exact Hpix].
    intros p [Hp1 Hp2]. change (mode (preprocess_image img)) with L in Hp1.
    destruct p as [|v [|? ?]]; try discriminate Hp1.
    exists v. split; [reflexivity|]. inversion Hp2; assumption.
Qed.

Lemma preprocess_image_greyscale_same_size_witness :
  let img := {| mode := RGB; width := 2; height := 1;
                data := [[200; 10; 30]; [0; 255; 90]]%Z |} in
  mode (preprocess_image img) = L
  /\ size (preprocess_image img) = (2, 1)%nat
  /\ valid (preprocess_image img)
  /\ List.length (data (preprocess_image img)) = (2 * 1)%nat
  /\ Forall (fun p => exists v, p = [v] /\ (0 <= v <= 255)%Z)
            (data (preprocess_image img)).
Proof.
  apply preprocess_image_greyscale_same_size; [|reflexivity|lia|lia].
  split; [reflexivity|].
  repeat constructor; unfold sample_ok; lia.
Defined.

(* ================================================================== *)
(** * Facts about the pipeline *)
(* ================================================================== *)

Section TraceFacts.

Variable P : Event -> Prop.

Lemma all_ret {A} (a : A) : Forall P (fst (ret a)).
Proof. constructor. Qed.

Lemma all_bind {A B} (m : M A) (f : A -> M B) :
  Forall P (fst m) -> (forall a, Forall P (fst (f a))) ->
  Forall P (fst (bind m f)).
Proof.
  intros Hm Hf. destruct m as [t [a|e]]; cbn [bind fst] in *.
  - specialize (Hf a). destruct (f a) as [t' r]. cbn [fst] in *.
    apply Forall_app. split; assumption.
  - exact Hm.
Qed.

Lemma all_try {A} (body : M A) (handler : Exception -> M A) :
  Forall P (fst body) -> (forall e, Forall P (fst (handler e))) ->
  Forall P (fst (try_except body handler)).
Proof.
  intros Hm Hh. destruct body as [t [a|e]]; cbn [try_except fst] in *.
  - exact Hm.
  - specialize (Hh e). destruct (handler e) as [t' r]. cbn [fst] in *.
    apply Forall_app. split; assumption.
Qed.

Lemma all_call {A} (ev : Event) (r : result A) :
  P ev -> Forall P (fst (call ev r)).
Proof. intros H. constructor; [exact H | constructor]. Qed.

Lemma all_print env (m : Msg) : P (Print m) -> Forall P (fst (print env m)).
Proof.
  intros H. unfold print. destruct (stdout_write env m).
  - constructor; [exact H | constructor].
  - constructor.
Qed.

Lemma all_when (b : bool) (m : M unit) :
  (b = true -> Forall P (fst m)) -> Forall P (fst (when b m)).
Proof.
  destruct b; cbn [when]; intros H; [apply H; reflexivity | constructor].
Qed.

Lemma all_status {A} (m : M A) :
  Forall P (fst m) -> Forall P (fst (status m)).
Proof. destruct m as [t [a|e]]; intros H; exact H. Qed.

Lemma all_then_exit {A} (m : M A) code :
  Forall P (fst m) -> Forall P (fst (then_exit m code)).
Proof. destruct m as [t [a|e]]; intros H; exact H. Qed.

End TraceFacts.

Section Projections.

Context {X : Type} (g : Event -> list X).




Lemma fst_status {A} (m : M A) : fst (status m) = fst m.
Proof. destruct m as [t [a|e]]; reflexivity. Qed.




(** A [print] that standard output accepts. *)
Lemma print_accepted env (m : Msg) :
  stdout_write env m = Ok tt -> print env m = ([Print m], Ok tt).
Proof. intros H. unfold print. rewrite H. reflexivity. Qed.

Lemma print_returned env (m : Msg) u :
  snd (print env m) = Ok u -> fst (print env m) = [Print m].
Proof. unfold print. destruct (stdout_write env m); [reflexivity | discriminate]. Qed.

(** What a sequence that returned went through. *)
Lemma bind_returned {A B} (m : M A) (f : A -> M B) b :
  snd (bind m f) = Ok b ->
  exists a, snd m = Ok a /\ snd (f a) = Ok b
            /\ fst (bind m f) = fst m ++ fst (f a).
Proof.
  destruct m as [t [a|e]]; cbn [bind fst snd]; [|discriminate].
  destruct (f a) as [t' r] eqn:E. cbn [fst snd]. intros ->.
  exists a. rewrite E. split; [reflexivity|]. split; reflexivity.
Qed.

End Projections.

(** Walks down a computation, leaving one goal per event. *)
Ltac walk :=
  repeat first
    [ apply all_ret
    | apply all_print
    | apply all_call
    | apply all_bind; [|intros ?]
    | apply all_when; intros ?
    | apply all_try; [|intros ?]
    | apply all_status
    | apply all_then_exit
    | match goal with
      | |- Forall _ (fst (if ?b then _ else _)) => destruct b
      end ].

Section PipelineFacts.

Variable env : Env.

(** A property of events that the lines of the batch loop have holds of
    the whole batch when it holds of what each file leaves. *)
Lemma batch_loop_all (P : Event -> Prop) pre n images :
  (forall m, batch_line m -> P (Print m)) ->
  (forall p, Forall P (fst (process_one env pre p))) ->
  forall i, Forall P (fst (batch_loop env pre n i images)).
Proof.
  intros Hprint Hone.
  induction images as [|p rest IH]; intros i; cbn [batch_loop].
  - constructor.
  - apply all_bind; [apply all_print, Hprint; exact I | intros _].
    apply all_bind; [apply all_print, Hprint; exact I | intros _].
    apply all_bind; [|intros _; apply IH].
    apply all_try; [apply Hone|].
    intros e; apply all_print, Hprint; exact I.
Qed.

Lemma process_batch_all (P : Event -> Prop) dir pre :
  (forall m, batch_line m -> P (Print m)) ->
  (forall p, Forall P (fst (process_one env pre p))) ->
  Forall P (fst (process_batch env dir pre)).
Proof.
  intros Hprint Hone. unfold process_batch.
  destruct (discover env dir) as [|p rest].
  - apply all_print, Hprint; exact I.
  - apply all_bind; [apply all_print, Hprint; exact I | intros _].
    apply all_bind; [|intros _; apply all_print, Hprint; exact I].
    apply batch_loop_all; assumption.
Qed.

Lemma ocr_fixed_config p pre save :
  Forall fixed_config (fst (ocr_documento_legal env p pre save)).
Proof.
  unfold ocr_documento_legal. walk; try exact I.
  all: split; reflexivity.
Qed.

Lemma save_results_fixed_config text p meta :
  Forall fixed_config (fst (save_results env text p meta)).
Proof.
  unfold save_results. walk; exact I.
Qed.

Lemma process_one_fixed_config pre p :
  Forall fixed_config (fst (process_one env pre p)).
Proof.
  unfold process_one.
  apply all_bind; [apply ocr_fixed_config | intros text].
  apply all_bind; [apply save_results_fixed_config | intros _].
  apply all_print. exact I.
Qed.

Lemma process_one_no_artifact pre p :
  Forall no_preprocessed_artifact (fst (process_one env pre p)).
Proof.
  unfold process_one, ocr_documento_legal, save_results.
  walk; try exact I; discriminate.
Qed.


End PipelineFacts.

(** C8: whatever the arguments and the environment, every call of the
    recognition engine that a run makes, in single-file or in batch mode,
    carries the language hint spa+eng, page segmentation mode 6 and engine
    mode 3. *)
Theorem engine_configuration_fixed (env : Env) (argv : list string) :
  Forall (fun ev =>
            match ev with
            | EvRecognize _ l c =>
                l = "spa+eng"%string /\ c = "--oem 3 --psm 6"%string
            | _ => True
            end)
         (fst (main env argv)).
Proof.
  change (Forall fixed_config (fst (main env argv))).
  unfold main.
  destruct (_ <? _)%nat; [apply all_then_exit, all_print; exact I|].
  destruct (negb _); [apply all_then_exit, all_print; exact I|].
  destruct (path_is_dir _ _); apply all_status.
  - apply process_batch_all; [intros m _; exact I|].
    apply process_one_fixed_config.
  - apply all_bind; [apply ocr_fixed_config | intros text].
    apply all_bind; [apply all_print; exact I | intros _].
    apply all_bind; [apply all_print; exact I | intros _].
    apply save_results_fixed_config.
Qed.

Section BatchFacts.

Variables (env : Env) (preprocess : bool).

(** Standard output accepts the lines that [process_batch] itself
    prints. *)
Hypothesis console_ok : forall m, batch_line m -> stdout_write env m = Ok tt.










End BatchFacts.

Section OutcomeFacts.

Variables (env : Env) (preprocess : bool).





End OutcomeFacts.




(** C3, as the code has it: when the preprocessed image is to be saved and
    its write fails, the engine is not called and no text is returned; the
    exception that leaves [ocr_documento_legal] is the one of the write,
    standard output having taken the three lines printed before it. *)
Theorem preprocessed_save_failure_propagates
    (env : Env) (image_path : path) (img : Image) (sz : N) (e : Exception) :
  image_open env image_path = Ok img ->
  stat_size env image_path = Ok sz ->
  mkdir env "output" = Ok tt ->
  image_save env (preprocess_image img)
    (path_join env "output"
       (path_stem env image_path ++ "_preprocessed.png")%string)
  = Raise e ->
  Forall no_recognition
         (fst (ocr_documento_legal env image_path true true))
  /\ is_raise (snd (ocr_documento_legal env image_path true true)) = true
  /\ (stdout_write env (MProcessing (path_name env image_path)) = Ok tt ->
      stdout_write env (MSize (width img) (height img)) = Ok tt ->
      stdout_write env MPreprocessing = Ok tt ->
      snd (ocr_documento_legal env image_path true true) = Raise e).
Proof.
  intros Hopen Hstat Hmkdir Hsave.
  unfold ocr_documento_legal, print.
  destruct (stdout_write env (MProcessing _)) as [[]|e1];
    cbn [emit bind call fst snd];
    [|split; [constructor
             | split; [reflexivity | intros H; discriminate H]]].
  rewrite Hopen. cbn [bind]. rewrite Hstat. cbn [bind size fst snd].
  destruct (stdout_write env (MSize _ _)) as [[]|e2];
    cbn [emit bind app fst snd];
    [|split; [repeat constructor
             | split; [reflexivity | intros _ H; discriminate H]]].
  destruct (stdout_write env MPreprocessing) as [[]|e3];
    cbn [emit bind when call app fst snd];
    [|split; [repeat constructor
             | split; [reflexivity | intros _ _ H; discriminate H]]].
  rewrite Hmkdir. cbn [bind]. rewrite Hsave.
  cbn [bind fst snd app].
  split; [repeat constructor | split; reflexivity].
Qed.

Lemma preprocessed_save_failure_propagates_witness :
  Forall no_recognition
         (fst (ocr_documento_legal studio_no_save "in/a.png" true true))
  /\ is_raise (snd (ocr_documento_legal studio_no_save "in/a.png" true true))
     = true
  /\ (stdout_write studio_no_save
        (MProcessing (path_name studio_no_save "in/a.png")) = Ok tt ->
      stdout_write studio_no_save (MSize (width scan) (height scan))
      = Ok tt ->
      stdout_write studio_no_save MPreprocessing = Ok tt ->
      snd (ocr_documento_legal studio_no_save "in/a.png" true true)
      = Raise "Permission denied"%string).
Proof.
  apply (preprocessed_save_failure_propagates
           studio_no_save "in/a.png" scan 2048%N);
    reflexivity.
Defined.

(** C3 as stated fails: here the image decodes and the engine would read
    it, the write of the preprocessed image fails, and the pipeline ends
    with that exception instead of the normalized text. *)
Lemma preprocessed_save_failure_is_fatal_here :
  let env := studio_no_save in
  let shown := preprocess_image scan in
  image_open env "in/a.png" = Ok scan
  /\ image_save env shown "output/a_preprocessed.png"
     = Raise "Permission denied"%string
  /\ image_to_string env shown lang custom_config = Ok reading
  /\ snd (ocr_documento_legal env "in/a.png" true true)
     = Raise "Permission denied"%string
  /\ snd (ocr_documento_legal env "in/a.png" true true)
     <> Ok (clean_text reading).
Proof.
  cbv zeta. repeat split; try reflexivity.
  vm_compute. discriminate.
Qed.

(** C7, as the code has it: a batch over a directory in which no file
    matches any of the extensions does nothing but print that no image was
    found: nothing is opened, no outcome is produced and [process_batch]
    raises nothing of its own.  When standard output accepts that line the
    process ends with status 0; when it refuses it, the [print] raises and
    the status is 1. *)
Theorem empty_directory_is_advisory
    (env : Env) (prog dir : string) (opts : list string) :
  path_exists env dir = true ->
  path_is_dir env dir = true ->
  (forall pattern, In pattern extensions ->
                   glob env (path_str env dir) pattern = []) ->
  main env (prog :: dir :: opts)
  = status (print env (MNoImages (path_str env dir)))
  /\ Forall console_only (fst (main env (prog :: dir :: opts)))
  /\ outcomes (fst (main env (prog :: dir :: opts))) = []
  /\ (stdout_write env (MNoImages (path_str env dir)) = Ok tt ->
      main env (prog :: dir :: opts)
      = ([Print (MNoImages (path_str env dir))], 0%Z)
      /\ forall preprocess,
           process_batch env (path_str env dir) preprocess
           = ([Print (MNoImages (path_str env dir))], Ok tt)).
Proof.
  intros Hex Hdir Hglob.
  assert (Hnone : discover env (path_str env dir) = []).
  { unfold discover, extensions. cbn [flat_map].
    rewrite !Hglob by (cbn; tauto). reflexivity. }
  assert (Hbatch : forall preprocess,
            process_batch env (path_str env dir) preprocess
            = print env (MNoImages (path_str env dir)))
    by (intros preprocess; unfold process_batch; rewrite Hnone; reflexivity).
  assert (Hmain : main env (prog :: dir :: opts)
                  = status (print env (MNoImages (path_str env dir)))).
  { unfold main. cbn [List.length Nat.ltb Nat.leb nth].
    rewrite Hex, Hdir. cbn [negb]. rewrite Hbatch. reflexivity. }
  split; [exact Hmain|].
  split; [rewrite Hmain; apply all_status, all_print; exact I|].
  split.
  - rewrite Hmain, fst_status. unfold print.
    destruct (stdout_write env _); reflexivity.
  - intros Hok. split.
    + rewrite Hmain, (print_accepted _ _ Hok). reflexivity.
    + intros preprocess. rewrite Hbatch. apply print_accepted, Hok.
Qed.

Lemma empty_directory_is_advisory_witness :
  main studio ["ocr_legal.py"; "empty"]%string
  = status (print studio (MNoImages (path_str studio "empty")))
  /\ Forall console_only (fst (main studio ["ocr_legal.py"; "empty"]%string))
  /\ outcomes (fst (main studio ["ocr_legal.py"; "empty"]%string)) = []
  /\ (stdout_write studio (MNoImages (path_str studio "empty")) = Ok tt ->
      main studio ["ocr_legal.py"; "empty"]%string
      = ([Print (MNoImages (path_str studio "empty"))], 0%Z)
      /\ forall preprocess,
           process_batch studio (path_str studio "empty") preprocess
           = ([Print (MNoImages (path_str studio "empty"))], Ok tt)).
Proof.
  apply (empty_directory_is_advisory studio "ocr_legal.py" "empty" []);
    [reflexivity | reflexivity | intros pattern _; reflexivity].
Defined.

(** C7 as stated fails: on an empty directory the process ends with
    status 1, and nothing printed, when standard output encodes ASCII only
    (the line holds an emoji), and as well when it is UTF-8 and the name of
    the directory, which the line shows, holds a byte that is not. *)
Lemma empty_directory_exits_one_here :
  path_is_dir studio_ascii "empty" = true
  /\ discover studio_ascii "empty" = []
  /\ main studio_ascii ["ocr_legal.py"; "empty"]%string = ([], 1%Z)
  /\ path_is_dir annex annex_empty = true
  /\ discover annex annex_empty = []
  /\ main annex ["ocr_legal.py"; annex_empty]%string = ([], 1%Z).
Proof.
  repeat split; vm_compute; reflexivity.
Qed.

(** C9: on a directory, [main] hands [process_batch] the directory and the
    preprocessing switch and nothing else, and [process_batch] runs every
    file with [save_preprocessed] false; so a batch writes no preprocessed
    image and announces none, and giving --save-prep changes nothing. *)
Theorem batch_ignores_save_prep
    (env : Env) (prog dir : string) (opts : list string) :
  path_exists env dir = true ->
  path_is_dir env dir = true ->
  main env (prog :: dir :: opts)
  = status (process_batch env (path_str env dir)
              (negb (mem "--no-prep" (prog :: dir :: opts))))
  /\ Forall no_preprocessed_artifact (fst (main env (prog :: dir :: opts)))
  /\ Forall no_preprocessed_artifact
            (fst (main env (prog :: dir :: "--save-prep"%string :: opts)))
  /\ main env (prog :: dir :: "--save-prep"%string :: opts)
     = main env (prog :: dir :: opts).
Proof.
  intros Hex Hdir.
  assert (Hmain : forall more,
            main env (prog :: dir :: more)
            = status (process_batch env (path_str env dir)
                        (negb (mem "--no-prep" (prog :: dir :: more))))).
  { intros more. unfold main. cbn [List.length Nat.ltb Nat.leb nth].
    rewrite Hex, Hdir. reflexivity. }
  assert (Hclean : forall more,
            Forall no_preprocessed_artifact
                   (fst (main env (prog :: dir :: more)))).
  { intros more. rewrite Hmain. apply all_status.
    apply process_batch_all; [intros [] Hm; solve [exact I | destruct Hm]|].
    apply process_one_no_artifact. }
  split; [apply Hmain|]. split; [apply Hclean|]. split; [apply Hclean|].
  rewrite !Hmain. reflexivity.
Qed.

Lemma batch_ignores_save_prep_witness :
  main studio ["ocr_legal.py"; "in"]%string
  = status (process_batch studio "in"
              (negb (mem "--no-prep" ["ocr_legal.py"; "in"]%string)))
  /\ Forall no_preprocessed_artifact
            (fst (main studio ["ocr_legal.py"; "in"]%string))
  /\ Forall no_preprocessed_artifact
            (fst (main studio ["ocr_legal.py"; "in"; "--save-prep"]%string))
  /\ main studio ["ocr_legal.py"; "in"; "--save-prep"]%string
     = main studio ["ocr_legal.py"; "in"]%string.
Proof.
  apply (batch_ignores_save_prep studio "ocr_legal.py" "in" []);
    reflexivity.
Defined.

Section Statistics.

(** A run that returns a text has printed the statistics of that text. *)
Lemma ocr_reports_statistics env p pre save :
  match snd (ocr_documento_legal env p pre save) with
  | Ok text =>
      In (Print (MStats (stat_lines text) (stat_words text)
                        (stat_chars text)))
         (fst (ocr_documento_legal env p pre save))
  | Raise _ => True
  end.
Proof.
  destruct (snd (ocr_documento_legal env p pre save)) as [text|] eqn:E;
    [|exact I].
  unfold ocr_documento_legal in *.
  do 8 (apply bind_returned in E; destruct E as (? & _ & E & ->);
        cbv beta zeta in *; apply in_or_app; right).
  apply bind_returned in E. destruct E as (? & Hp & E & ->).
  cbn [ret snd] in E. injection E as <-.
  rewrite (print_returned _ _ _ Hp). left. reflexivity.
Qed.

End Statistics.

(** C10: the line count that [ocr_documento_legal] reports with the text
    it returns counts the lines that hold a non-whitespace character; empty
    and whitespace-only lines are left out, so the text "a\n\nb", which has
    three lines, counts 2. *)
Theorem stat_lines_counts_nonblank :
  (forall env p pre save,
     match snd (ocr_documento_legal env p pre save) with
     | Ok text =>
         exists words chars,
           In (Print (MStats (stat_lines text) words chars))
              (fst (ocr_documento_legal env p pre save))
     | Raise _ => True
     end)
  /\ (forall text : str,
        stat_lines text
        = List.length (filter (fun l => negb (blank l)) (lines_of text)))
  /\ List.length (lines_of (py "a" ++ [nl; nl] ++ py "b")) = 3%nat
  /\ stat_lines (py "a" ++ [nl; nl] ++ py "b") = 2%nat.
Proof.
  split; [|split; [|split; reflexivity]].
  - intros env p pre save.
    pose proof (ocr_reports_statistics env p pre save) as H.
    destruct (snd (ocr_documento_legal env p pre save)); [|exact I].
    eexists _, _. exact H.
  - intros text. unfold stat_lines, lines_of, blank. f_equal.
    apply filter_ext. intros l. apply truthy_strip.
Qed.

(* ================================================================== *)
(** * Concrete scenarios *)
(* ================================================================== *)

(** Runs of spaces and of newlines inside a text with an accented
    letter. *)
Example clean_text_hola_mundo :
  clean_text (py "Hola   mundo" ++ repeat nl 4 ++ py "Adi" ++ [243%N] ++ py "s")
  = py "Hola mundo" ++ [nl; nl] ++ py "Adi" ++ [243%N] ++ py "s".
Proof. reflexivity. Qed.

(** The statistics of a two-line text. *)
Example statistics_one_two_three :
  let text := py "one two" ++ [nl] ++ py "three" in
  stat_words text = 3%nat /\ stat_lines text = 2%nat
  /\ stat_chars text = List.length text.
Proof. cbv zeta. repeat split. Qed.

(** A directory with a good file and one that does not decode: two
    outcomes, the batch runs to its end and the process ends with 0. *)
Example batch_with_corrupt_file :
  outcomes (fst (main studio ["ocr_legal.py"; "in"]%string))
  = [Success "a.png"; Failure "b.jpg" "cannot identify image file"]
  /\ snd (main studio ["ocr_legal.py"; "in"]%string) = 0%Z.
Proof. split; reflexivity. Qed.

(* ================================================================== *)
(** * Further facts about [clean_text] and the statistics *)
(* ================================================================== *)

Section WordFacts.

Lemma split_ws_from_space w x s :
  isspace x = true ->
  split_ws_from w (x :: s) = word_end w ++ split_ws s.
Proof.
  intros Hx. cbn [split_ws_from]. rewrite Hx.
  destruct w; reflexivity.
Qed.

Lemma split_ws_from_blank w b :
  forallb isspace b = true -> split_ws_from w b = word_end w.
Proof.
  revert w. induction b as [|x r IH]; intros w H.
  - destruct w; reflexivity.
  - cbn [forallb] in H. apply andb_prop in H. destruct H as [Hx Hr].
    rewrite split_ws_from_space by exact Hx.
    unfold split_ws. rewrite (IH [] Hr). apply app_nil_r.
Qed.

(** Whitespace between two parts of a text separates their words. *)
Lemma split_ws_from_app_space w a x b :
  isspace x = true ->
  split_ws_from w (a ++ x :: b) = split_ws_from w a ++ split_ws b.
Proof.
  intros Hx. revert w. induction a as [|y r IH]; intros w.
  - cbn [app]. rewrite split_ws_from_space by exact Hx.
    destruct w; reflexivity.
  - cbn [app split_ws_from]. destruct (isspace y).
    + destruct w; rewrite IH; reflexivity.
    + apply IH.
Qed.

Lemma split_ws_from_app_blank w t b :
  forallb isspace b = true ->
  split_ws_from w (t ++ b) = split_ws_from w t.
Proof.
  intros Hb. destruct b as [|x b']; [rewrite app_nil_r; reflexivity|].
  cbn [forallb] in Hb. apply andb_prop in Hb. destruct Hb as [Hx Hb'].
  rewrite split_ws_from_app_space by exact Hx.
  unfold split_ws. rewrite (split_ws_from_blank [] b' Hb'). apply app_nil_r.
Qed.

Lemma split_ws_blank_app a s :
  forallb isspace a = true -> split_ws (a ++ s) = split_ws s.
Proof.
  unfold split_ws. induction a as [|x r IH]; intros H; [reflexivity|].
  cbn [forallb] in H. apply andb_prop in H. destruct H as [Hx Hr].
  cbn [app split_ws_from]. rewrite Hx. apply IH, Hr.
Qed.

Lemma split_ws_from_blank_app w a s :
  forallb isspace a = true -> a <> [] ->
  split_ws_from w (a ++ s) = word_end w ++ split_ws s.
Proof.
  intros Ha Hne. destruct a as [|x r]; [congruence|].
  cbn [forallb] in Ha. apply andb_prop in Ha. destruct Ha as [Hx Hr].
  cbn [app]. rewrite split_ws_from_space by exact Hx.
  rewrite split_ws_blank_app by exact Hr. reflexivity.
Qed.

(** Texts with the same words after any word keep them behind any common
    prefix. *)
Lemma split_ws_from_prefix a b :
  (forall w, split_ws_from w a = split_ws_from w b) ->
  forall p w, split_ws_from w (p ++ a) = split_ws_from w (p ++ b).
Proof.
  intros H p. induction p as [|x r IH]; intros w; [apply H|].
  cbn [app split_ws_from]. destruct (isspace x).
  - destruct w; rewrite IH; reflexivity.
  - apply IH.
Qed.

Lemma split_ws_strip s : split_ws (strip s) = split_ws s.
Proof.
  destruct (strip_middle s) as [a [b [Hs [Ha Hb]]]].
  rewrite Hs at 2. rewrite split_ws_blank_app by exact Ha.
  unfold split_ws. rewrite split_ws_from_app_blank by exact Hb. reflexivity.
Qed.

Lemma split_ws_join ls :
  split_ws (join nl ls) = List.concat (map split_ws ls).
Proof.
  induction ls as [|l ls IH]; [reflexivity|].
  destruct ls as [|l' ls'].
  - cbn [join map concat]. symmetry. apply app_nil_r.
  - change (join nl (l :: l' :: ls')) with (l ++ nl :: join nl (l' :: ls')).
    unfold split_ws at 1.
    rewrite split_ws_from_app_space by reflexivity.
    rewrite IH. reflexivity.
Qed.

Lemma split_ws_strip_lines s : split_ws (strip_lines s) = split_ws s.
Proof.
  unfold strip_lines. rewrite split_ws_join, map_map.
  rewrite (map_ext _ split_ws split_ws_strip).
  rewrite <- split_ws_join, join_split. reflexivity.
Qed.

Section SubRunWords.

Variables (c : codepoint) (m : nat) (repl : str).
Hypothesis c_space : isspace c = true.
Hypothesis repl_blank : forallb isspace repl = true.
Hypothesis repl_some : repl <> [].

Lemma repeat_blank k : forallb isspace (repeat c k) = true.
Proof.
  induction k as [|k IH]; [reflexivity|].
  cbn [repeat forallb]. rewrite c_space, IH. reflexivity.
Qed.

(** Replacing a run of a whitespace character by whitespace leaves the
    words as they are, unless the run is empty. *)
Lemma flush_words k w s :
  (1 <= m)%nat ->
  split_ws_from w (flush c m repl k ++ s)
  = split_ws_from w (repeat c k ++ s).
Proof.
  intros Hm. unfold flush. destruct (Nat.leb_spec m k); [|reflexivity].
  rewrite split_ws_from_blank_app by assumption.
  rewrite split_ws_from_blank_app; [reflexivity | apply repeat_blank|].
  destruct k; [lia | discriminate].
Qed.

Lemma sub_run_from_words s :
  (1 <= m)%nat ->
  forall k w,
    split_ws_from w (sub_run_from c m repl k s)
    = split_ws_from w (repeat c k ++ s).
Proof.
  intros Hm. induction s as [|x r IH]; intros k w; cbn [sub_run_from].
  - rewrite <- (app_nil_r (flush c m repl k)).
    apply flush_words, Hm.
  - destruct (x =? c)%N eqn:E.
    + apply N.eqb_eq in E. subst x. rewrite IH.
      change (repeat c (S k)) with (c :: repeat c k).
      rewrite repeat_cons, <- app_assoc. reflexivity.
    + rewrite flush_words by exact Hm.
      pose proof (split_ws_from_prefix (sub_run_from c m repl 0 r) r
                    (fun w' => IH 0%nat w') (repeat c k ++ [x]) w) as H.
      rewrite <- !app_assoc in H. exact H.
Qed.

End SubRunWords.

End WordFacts.

Section CleanTextWords.

Lemma clean_text_words s : split_ws (clean_text s) = split_ws s.
Proof.
  unfold clean_text.
  fold (strip_lines (collapse_newlines (collapse_spaces s))).
  rewrite split_ws_strip, split_ws_strip_lines.
  unfold collapse_newlines, collapse_spaces, sub_run, split_ws.
  rewrite (sub_run_from_words nl 3 [nl; nl])
    by (reflexivity || discriminate || lia).
  cbn [repeat app].
  rewrite (sub_run_from_words sp 1 [sp])
    by (reflexivity || discriminate || lia).
  reflexivity.
Qed.

Lemma split_ws_from_nil s : forall w,
  split_ws_from w s = [] -> w = [] /\ forallb isspace s = true.
Proof.
  induction s as [|x r IH]; intros w; cbn [split_ws_from forallb].
  - destruct w; [split; reflexivity | discriminate].
  - destruct (isspace x).
    + destruct w; [|discriminate]. intros H.
      split; [reflexivity | apply (IH [] H)].
    + intros H. apply IH in H. destruct H as [H _]. discriminate.
Qed.

Lemma split_ws_nil_iff s : split_ws s = [] <-> forallb isspace s = true.
Proof.
  split.
  - intros H. apply (split_ws_from_nil s [] H).
  - intros H. apply (split_ws_from_blank [] s H).
Qed.

Lemma trimmed_blank_nil t : trimmed t -> forallb isspace t = true -> t = [].
Proof.
  intros [H _] Hb. destruct t as [|x r]; [reflexivity|].
  cbn [no_leading_ws forallb] in *. rewrite H in Hb. discriminate.
Qed.

Lemma clean_text_nil_iff s :
  clean_text s = [] <-> forallb isspace s = true.
Proof.
  rewrite <- split_ws_nil_iff, <- clean_text_words. split.
  - intros ->. reflexivity.
  - intros H. apply split_ws_nil_iff in H.
    apply trimmed_blank_nil; [|exact H].
    unfold clean_text. apply strip_trimmed.
Qed.

End CleanTextWords.

Section Lengths.

Lemma sub_run_from_length c m repl s :
  (List.length repl <= m)%nat ->
  forall k,
    (List.length (sub_run_from c m repl k s) <= k + List.length s)%nat.
Proof.
  intros Hrepl.
  assert (Hf : forall k, (List.length (flush c m repl k) <= k)%nat).
  { intros k. unfold flush. destruct (Nat.leb_spec m k); [lia|].
    rewrite repeat_length. lia. }
  induction s as [|x r IH]; intros k; cbn [sub_run_from List.length].
  - specialize (Hf k). lia.
  - destruct (x =? c)%N.
    + specialize (IH (S k)). lia.
    + rewrite length_app. cbn [List.length].
      specialize (IH 0%nat). specialize (Hf k). lia.
Qed.

Lemma strip_length s : (List.length (strip s) <= List.length s)%nat.
Proof.
  destruct (strip_middle s) as [a [b [Hs _]]].
  rewrite Hs at 2. rewrite !length_app. lia.
Qed.

Lemma join_strip_length ls :
  (List.length (join nl (map strip ls)) <= List.length (join nl ls))%nat.
Proof.
  induction ls as [|l ls IH]; [apply Nat.le_refl|].
  destruct ls as [|l' ls'].
  - cbn [map join]. apply strip_length.
  - change (join nl (l :: l' :: ls')) with (l ++ nl :: join nl (l' :: ls')).
    change (join nl (map strip (l :: l' :: ls')))
      with (strip l ++ nl :: join nl (map strip (l' :: ls'))).
    rewrite !length_app. cbn [List.length].
    pose proof (strip_length l). lia.
Qed.

Lemma clean_text_length s :
  (List.length (clean_text s) <= List.length s)%nat.
Proof.
  unfold clean_text.
  eapply Nat.le_trans; [apply strip_length|].
  eapply Nat.le_trans; [apply join_strip_length|].
  rewrite join_split.
  pose proof (sub_run_from_length nl 3 [nl; nl] (collapse_spaces s)) as H2.
  pose proof (sub_run_from_length sp 1 [sp] s) as H1.
  specialize (H2 ltac:(cbn; lia) 0%nat).
  specialize (H1 ltac:(cbn; lia) 0%nat).
  unfold collapse_newlines, collapse_spaces, sub_run in *. lia.
Qed.

Lemma split_ws_from_length s : forall w,
  (List.length (split_ws_from w s)
   <= List.length s + List.length (word_end w))%nat.
Proof.
  induction s as [|x r IH]; intros w; cbn [split_ws_from].
  - destruct w; cbn; lia.
  - destruct (isspace x).
    + destruct w; cbn [List.length word_end];
        specialize (IH []); cbn [word_end List.length] in IH; lia.
    + specialize (IH (x :: w)). cbn [word_end List.length] in *.
      destruct w; cbn [List.length]; lia.
Qed.

Lemma nonblank_lines_words ls :
  (List.length (filter (fun l => truthy (strip l)) ls)
   <= List.length (List.concat (map split_ws ls)))%nat.
Proof.
  induction ls as [|l ls IH]; [apply Nat.le_refl|].
  cbn [filter map List.concat]. rewrite length_app, truthy_strip.
  destruct (forallb isspace l) eqn:E; cbn [negb List.length]; [lia|].
  destruct (split_ws l) eqn:W.
  - apply split_ws_nil_iff in W. congruence.
  - cbn [List.length]. lia.
Qed.

End Lengths.

(** X1: [clean_text] keeps the words: splitting its output at whitespace
    gives the same words, in the same order, as splitting its input, so the
    word count is the one of the raw text. *)
Theorem clean_text_preserves_words (s : str) :
  split_ws (clean_text s) = split_ws s
  /\ stat_words (clean_text s) = stat_words s.
Proof.
  split; [apply clean_text_words|].
  unfold stat_words. rewrite clean_text_words. reflexivity.
Qed.

(** X2: [clean_text] returns the empty string exactly on the inputs that
    are empty or hold only whitespace. *)
Theorem clean_text_empty_iff_blank (s : str) :
  clean_text s = [] <-> blank s = true.
Proof.
  apply clean_text_nil_iff.
Qed.

(** X3: [clean_text] never makes a text longer. *)
Theorem clean_text_never_longer (s : str) :
  (stat_chars (clean_text s) <= stat_chars s)%nat.
Proof.
  apply clean_text_length.
Qed.

(** X4: for every text the statistics are ordered: the count of non-blank
    lines is at most the count of words, which is at most the count of
    characters. *)
Theorem statistics_ordered (text : str) :
  (stat_lines text <= stat_words text)%nat
  /\ (stat_words text <= stat_chars text)%nat.
Proof.
  unfold stat_lines, stat_words, stat_chars. split.
  - rewrite <- (join_split nl text) at 2. rewrite split_ws_join.
    apply nonblank_lines_words.
  - pose proof (split_ws_from_length text []) as H.
    cbn [word_end List.length] in H. unfold split_ws. lia.
Qed.

Section TwoPasses.

Lemma run_free_repeat c m b : forall j k,
  (m <= k + j)%nat -> (1 <= j)%nat ->
  run_free c m k (repeat c j ++ b) = false.
Proof.
  induction j as [|j IH]; intros k Hm Hj; [lia|].
  cbn [repeat app run_free]. rewrite N.eqb_refl.
  destruct (Nat.ltb_spec (S k) m) as [Hlt|Hge]; [|reflexivity].
  cbn [andb]. apply IH; lia.
Qed.

Lemma run_free_run c m a b :
  (1 <= m)%nat -> forall k, run_free c m k (a ++ repeat c m ++ b) = false.
Proof.
  intros Hm. induction a as [|x r IH]; intros k.
  - apply run_free_repeat; lia.
  - cbn [app run_free]. destruct (x =? c)%N.
    + rewrite IH. apply andb_false_r.
    + apply IH.
Qed.

Lemma run_free_sound c m s :
  (1 <= m)%nat -> run_free c m 0 s = true -> ~ has_run c m s.
Proof.
  intros Hm H [a [b ->]]. rewrite run_free_run in H by exact Hm.
  discriminate.
Qed.

(** Step 2 leaves no run of three newlines. *)
Lemma collapse_newlines_from_run_free s : forall k,
  run_free nl 3 0 (sub_run_from nl 3 [nl; nl] k s) = true.
Proof.
  induction s as [|x r IH]; intros k; cbn [sub_run_from].
  - destruct k as [|[|[|k]]]; reflexivity.
  - destruct (x =? nl)%N eqn:E; [apply IH|].
    specialize (IH 0%nat).
    destruct k as [|[|[|k]]]; cbn; rewrite E; exact IH.
Qed.

Lemma collapse_newlines_no_run s : ~ has_run nl 3 (collapse_newlines s).
Proof.
  apply run_free_sound; [lia|]. apply collapse_newlines_from_run_free.
Qed.

Lemma split_nl_cons r : split nl (nl :: r) = [] :: split nl r.
Proof. apply split_cons_sep. Qed.

(** Step 2 takes away empty lines and nothing else: the first line stays,
    and a property that the other lines and the empty line have, the lines
    of the result have. *)
Lemma collapse_newlines_from_lines (P : str -> Prop) s :
  P [] ->
  forall k,
    (k = 0%nat -> Forall P (tl (split nl s)) ->
     hd [] (split nl (sub_run_from nl 3 [nl; nl] k s)) = hd [] (split nl s)
     /\ Forall P (tl (split nl (sub_run_from nl 3 [nl; nl] k s))))
    /\ ((1 <= k)%nat -> Forall P (split nl s) ->
        hd [] (split nl (sub_run_from nl 3 [nl; nl] k s)) = []
        /\ Forall P (tl (split nl (sub_run_from nl 3 [nl; nl] k s)))).
Proof.
  intros Pnil. induction s as [|x r IH]; intros k.
  - split.
    + intros -> _. split; [reflexivity | constructor].
    + intros Hk _. cbn [sub_run_from].
      destruct k as [|[|[|k]]]; [lia| | |]; cbn;
        split; try reflexivity; repeat constructor; exact Pnil.
  - cbn [sub_run_from]. destruct (N.eq_dec x nl) as [->|Hx].
    + rewrite N.eqb_refl, split_nl_cons. cbn [hd tl].
      destruct (IH (S k)) as [_ IH1]. split.
      * intros _ H. apply IH1; [lia | exact H].
      * intros _ H. inversion H; subst. apply IH1; [lia | assumption].
    + pose proof Hx as Hx'. apply N.eqb_neq in Hx'. rewrite Hx'.
      rewrite (split_cons_other nl x r Hx).
      destruct (IH 0%nat) as [IH0 _]. cbn [hd tl]. split.
      * intros -> H. cbn [flush Nat.leb repeat app].
        rewrite (split_cons_other nl x _ Hx). cbn [hd tl].
        destruct (IH0 eq_refl H) as [-> Ht]. split; [reflexivity | exact Ht].
      * intros Hk H. inversion H as [|? ? Hhd Htl]; subst.
        destruct (IH0 eq_refl Htl) as [Eh Ht].
        assert (G : Forall P (split nl
                      (x :: sub_run_from nl 3 [nl; nl] 0 r))).
        { rewrite (split_cons_other nl x _ Hx), Eh.
          constructor; assumption. }
        destruct k as [|[|[|k]]]; [lia| | |];
          cbn [flush Nat.leb repeat app]; rewrite !split_nl_cons;
          cbn [hd tl]; split; try reflexivity;
          repeat (constructor; [exact Pnil|]); exact G.
Qed.

Lemma collapse_newlines_lines (P : str -> Prop) s :
  P [] -> Forall P (lines_of s) -> Forall P (lines_of (collapse_newlines s)).
Proof.
  unfold lines_of, collapse_newlines, sub_run. intros Pnil H.
  destruct (collapse_newlines_from_lines P s Pnil 0) as [H0 _].
  destruct (split nl s) as [|l ls] eqn:E;
    [exfalso; exact (split_nonempty _ _ E)|].
  inversion H; subst. cbn [hd tl] in H0.
  destruct (H0 eq_refl) as [Eh Ht]; [assumption|].
  destruct (split nl (sub_run_from nl 3 [nl; nl] 0 s)) as [|l' ls'] eqn:E';
    [exfalso; exact (split_nonempty _ _ E')|].
  cbn [hd tl] in *. subst l'. constructor; assumption.
Qed.

Lemma collapse_newlines_trimmed t : trimmed t -> trimmed (collapse_newlines t).
Proof.
  intros [Hl Ht]. unfold collapse_newlines, sub_run. split.
  - destruct t as [|x r]; [exact I|].
    cbn [no_leading_ws] in Hl. cbn [sub_run_from].
    rewrite (proj2 (N.eqb_neq x nl) (not_space_not_nl x Hl)). exact Hl.
  - unfold no_trailing_ws in *.
    destruct t as [|z r] using rev_ind; [exact I|]. clear IHr.
    rewrite rev_app_distr in Ht. cbn [rev app no_leading_ws] in Ht.
    rewrite sub_run_from_other by (apply not_space_not_nl, Ht).
    cbn [sub_run_from flush Nat.leb repeat].
    rewrite rev_app_distr. exact Ht.
Qed.

(** The second pass only does step 2. *)
Lemma clean_text_twice s :
  clean_text (clean_text s) = collapse_newlines (clean_text s).
Proof.
  change (clean_text (clean_text s))
    with (strip (strip_lines (collapse_newlines
            (collapse_spaces (clean_text s))))).
  rewrite (collapse_spaces_single _ (clean_text_no_double s)).
  rewrite strip_lines_fixed
    by (apply collapse_newlines_lines;
        [apply trimmed_nil | apply clean_text_lines]).
  apply strip_fixed, collapse_newlines_trimmed.
  unfold clean_text. apply strip_trimmed.
Qed.

Lemma clean_text_twice_no_run s : ~ has_run nl 3 (clean_text (clean_text s)).
Proof.
  rewrite clean_text_twice. apply collapse_newlines_no_run.
Qed.

Lemma clean_text_fixed_iff s :
  clean_text (clean_text s) = clean_text s <-> ~ has_run nl 3 (clean_text s).
Proof.
  split.
  - intros H. rewrite <- H. apply clean_text_twice_no_run.
  - intros H. rewrite clean_text_twice.
    apply sub_run_run_free; [lia | exact H].
Qed.

End TwoPasses.

(** X5: a second pass of [clean_text] over its own output only cuts the
    runs of newlines that the first pass left, and what it returns is a
    fixed point: it holds no three newlines in a row and a third pass
    changes nothing. *)
Theorem clean_text_stable_after_two_passes (s : str) :
  clean_text (clean_text s) = collapse_newlines (clean_text s)
  /\ ~ has_run nl 3 (clean_text (clean_text s))
  /\ clean_text (clean_text (clean_text s)) = clean_text (clean_text s).
Proof.
  split; [apply clean_text_twice|].
  split; [apply clean_text_twice_no_run|].
  apply clean_text_fixed_iff, clean_text_twice_no_run.
Qed.

(** X6: [clean_text] leaves its own output unchanged exactly when that
    output holds no run of three newlines. *)
Theorem clean_text_idempotent_iff_bounded (s : str) :
  clean_text (clean_text s) = clean_text s
  <-> ~ has_run nl 3 (clean_text s).
Proof.
  apply clean_text_fixed_iff.
Qed.

(* ================================================================== *)
(** * Further facts about the pipeline and its drivers *)
(* ================================================================== *)

Section DriverFacts.

Variable env : Env.







Section AcceptedLines.

Hypothesis console_ok : forall m, batch_line m -> stdout_write env m = Ok tt.
Hypothesis processing_ok :
  forall name, stdout_write env (MProcessing name) = Ok tt.




End AcceptedLines.


End DriverFacts.



Section MainFacts.

Variable env : Env.




Lemma ocr_within_output p pre save :
  Forall (within_output env) (fst (ocr_documento_legal env p pre save)).
Proof.
  unfold ocr_documento_legal. walk;
    first [exact I | reflexivity | eexists; reflexivity].
Qed.

Lemma save_results_within_output text p meta :
  Forall (within_output env) (fst (save_results env text p meta)).
Proof.
  unfold save_results. walk;
    first [exact I | reflexivity | eexists; reflexivity].
Qed.

Lemma process_one_within_output pre p :
  Forall (within_output env) (fst (process_one env pre p)).
Proof.
  unfold process_one.
  apply all_bind; [apply ocr_within_output | intros text].
  apply all_bind; [apply save_results_within_output | intros _].
  apply all_print. exact I.
Qed.

Lemma ocr_no_image_save p pre save :
  pre = false \/ save = false ->
  Forall not_image_save (fst (ocr_documento_legal env p pre save)).
Proof.
  intros H. unfold ocr_documento_legal.
  destruct pre, save; walk; try exact I;
    destruct H; discriminate.
Qed.

Lemma save_results_no_image_save text p meta :
  Forall not_image_save (fst (save_results env text p meta)).
Proof.
  unfold save_results. walk; exact I.
Qed.

Lemma process_one_no_image_save pre p :
  Forall not_image_save (fst (process_one env pre p)).
Proof.
  unfold process_one.
  apply all_bind; [apply ocr_no_image_save; right; reflexivity|intros text].
  apply all_bind; [apply save_results_no_image_save | intros _].
  apply all_print. exact I.
Qed.

(** What [ocr_documento_legal] returns is what the engine read on the
    image it was given, cleaned. *)
Lemma ocr_returns p pre save text :
  snd (ocr_documento_legal env p pre save) = Ok text ->
  exists img raw,
    image_open env p = Ok img
    /\ image_to_string env (if pre then preprocess_image img else img)
         lang custom_config = Ok raw
    /\ text = clean_text raw.
Proof.
  unfold ocr_documento_legal. intros E.
  apply bind_returned in E. destruct E as (? & _ & E & _).
  apply bind_returned in E. destruct E as (img & Hopen & E & _).
  cbv beta zeta in E.
  apply bind_returned in E. destruct E as (? & _ & E & _).
  apply bind_returned in E. destruct E as (? & _ & E & _).
  apply bind_returned in E. destruct E as (shown & Hshown & E & _).
  cbv beta zeta in E.
  apply bind_returned in E. destruct E as (? & _ & E & _).
  apply bind_returned in E. destruct E as (raw & Hraw & E & _).
  cbv beta zeta in E.
  apply bind_returned in E. destruct E as (? & _ & E & _).
  apply bind_returned in E. destruct E as (? & _ & E & _).
  cbn [ret snd call] in *. injection E as <-.
  exists img, raw. split; [exact Hopen|]. split; [|reflexivity].
  assert (Hs : shown = if pre then preprocess_image img else img).
  { destruct pre; [|injection Hshown as <-; reflexivity].
    apply bind_returned in Hshown. destruct Hshown as (? & _ & Hshown & _).
    apply bind_returned in Hshown. destruct Hshown as (? & _ & Hshown & _).
    cbn [ret snd] in Hshown. injection Hshown as <-. reflexivity. }
  rewrite <- Hs. exact Hraw.
Qed.

(** A file that [save_results] finished with has both its files
    written. *)
Lemma save_results_returns text p :
  snd (save_results env text p true) = Ok tt ->
  let base := path_stem env p in
  let txt := path_join env "output" (base ++ ".txt")%string in
  let md := path_join env "output" (base ++ ".md")%string in
  write_text env txt text = Ok tt
  /\ write_text env md (md_content env base p text) = Ok tt
  /\ In (EvWriteText txt text) (fst (save_results env text p true))
  /\ In (EvWriteText md (md_content env base p text))
        (fst (save_results env text p true)).
Proof.
  cbv zeta. unfold save_results. intros E.
  apply bind_returned in E. destruct E as (? & _ & E & ->).
  apply bind_returned in E. destruct E as ([] & H1 & E & ->).
  apply bind_returned in E. destruct E as (? & _ & E & ->).
  cbn [when] in *.
  apply bind_returned in E. destruct E as ([] & H2 & E & ->).
  cbn [call fst snd] in *. cbn [app In].
  split; [exact H1|]. split; [exact H2|].
  split.
  - right. left. reflexivity.
  - right. right. apply in_or_app. right. left. reflexivity.
Qed.

End MainFacts.





(** X10: a text that [ocr_documento_legal] returns is [clean_text] of what
    the engine read, and the engine read the decoded image after
    [preprocess_image] when preprocessing is on, the decoded image itself
    when it is off. *)
Theorem ocr_returns_cleaned_reading
    (env : Env) (p : path) (preprocess save_preprocessed : bool)
    (text : str) :
  snd (ocr_documento_legal env p preprocess save_preprocessed) = Ok text ->
  exists img raw,
    image_open env p = Ok img
    /\ image_to_string env
         (if preprocess then preprocess_image img else img)
         "spa+eng" "--oem 3 --psm 6" = Ok raw
    /\ text = clean_text raw.
Proof.
  apply ocr_returns.
Qed.

Lemma ocr_returns_cleaned_reading_witness :
  exists img raw,
    image_open studio "in/a.png" = Ok img
    /\ image_to_string studio (if true then preprocess_image img else img)
         "spa+eng" "--oem 3 --psm 6" = Ok raw
    /\ py "Hola mundo" ++ [nl; nl] ++ py "Adios" = clean_text raw.
Proof.
  apply (ocr_returns_cleaned_reading studio "in/a.png" true false).
  reflexivity.
Defined.

(** X11: a file of a batch whose processing ends without an exception has
    been recognized and has had both result files written and accepted:
    [output/<stem>.txt] with the returned text and [output/<stem>.md] with
    the Markdown wrapper of it. *)
Theorem processed_file_is_persisted
    (env : Env) (preprocess : bool) (img_path : path) :
  snd (process_one env preprocess img_path) = Ok tt ->
  exists text,
    snd (ocr_documento_legal env (path_str env img_path) preprocess false)
    = Ok text
    /\ let base := path_stem env (path_str env img_path) in
       let txt := path_join env "output" (base ++ ".txt")%string in
       let md := path_join env "output" (base ++ ".md")%string in
       let content := md_content env base (path_str env img_path) text in
       write_text env txt text = Ok tt
       /\ write_text env md content = Ok tt
       /\ In (EvWriteText txt text) (fst (process_one env preprocess img_path))
       /\ In (EvWriteText md content)
             (fst (process_one env preprocess img_path)).
Proof.
  unfold process_one. intros E.
  apply bind_returned in E. destruct E as (text & Hocr & E & ->).
  apply bind_returned in E. destruct E as ([] & S & _ & ->).
  exists text. split; [exact Hocr|].
  destruct (save_results_returns env text (path_str env img_path) S)
    as [H1 [H2 [H3 H4]]].
  cbv zeta. split; [exact H1|]. split; [exact H2|].
  split; apply in_or_app; right; apply in_or_app; left; assumption.
Qed.

Lemma processed_file_is_persisted_witness :
  exists text,
    snd (ocr_documento_legal studio (path_str studio "in/a.png") true false)
    = Ok text
    /\ let base := path_stem studio (path_str studio "in/a.png") in
       let txt := path_join studio "output" (base ++ ".txt")%string in
       let md := path_join studio "output" (base ++ ".md")%string in
       let content := md_content studio base (path_str studio "in/a.png")
                        text in
       write_text studio txt text = Ok tt
       /\ write_text studio md content = Ok tt
       /\ In (EvWriteText txt text) (fst (process_one studio true "in/a.png"))
       /\ In (EvWriteText md content)
             (fst (process_one studio true "in/a.png")).
Proof.
  apply (processed_file_is_persisted studio true "in/a.png").
  reflexivity.
Defined.

(** X12: whatever the arguments and the environment, a run creates no
    directory but [output] and writes no file, text or image, but directly
    in [output]. *)
Theorem writes_stay_in_output (env : Env) (argv : list string) :
  Forall (within_output env) (fst (main env argv)).
Proof.
  unfold main.
  destruct (_ <? _)%nat; [apply all_then_exit, all_print; exact I|].
  destruct (negb _); [apply all_then_exit, all_print; exact I|].
  destruct (path_is_dir _ _); apply all_status.
  - apply process_batch_all; [intros m _; exact I|].
    apply process_one_within_output.
  - apply all_bind; [apply ocr_within_output | intros text].
    apply all_bind; [apply all_print; exact I | intros _].
    apply all_bind; [apply all_print; exact I | intros _].
    apply save_results_within_output.
Qed.

(** X13: a preprocessed image is written only for a single file, with
    --save-prep given and --no-prep not given: with the save switch off,
    with preprocessing off, or on a directory, no image is saved. *)
Theorem image_saved_only_on_request (env : Env) (argv : list string) :
  mem "--save-prep" argv = false
  \/ mem "--no-prep" argv = true
  \/ path_is_dir env (nth 1 argv ""%string) = true ->
  Forall not_image_save (fst (main env argv)).
Proof.
  intros H. unfold main.
  destruct (_ <? _)%nat; [apply all_then_exit, all_print; exact I|].
  destruct (negb (path_exists _ _));
    [apply all_then_exit, all_print; exact I|].
  destruct (path_is_dir env (nth 1 argv ""%string)) eqn:D; apply all_status.
  - apply process_batch_all; [intros m _; exact I|].
    apply process_one_no_image_save.
  - apply all_bind; [|intros text].
    + apply ocr_no_image_save.
      destruct H as [H|[H|H]]; [right; exact H | left | discriminate].
      rewrite H. reflexivity.
    + apply all_bind; [apply all_print; exact I | intros _].
      apply all_bind; [apply all_print; exact I | intros _].
      apply save_results_no_image_save.
Qed.

Lemma image_saved_only_on_request_witness :
  Forall not_image_save
    (fst (main studio
            ["ocr_legal.py"; "in/a.png"; "--no-prep"; "--save-prep"]%string)).
Proof.
  apply image_saved_only_on_request. right. left. reflexivity.
Defined.



(* ================================================================== *)
(** * The non-blank lines under [clean_text] *)
(* ================================================================== *)

Section CoreFacts.

Lemma cores_from_nl cur s :
  cores_from cur (nl :: s) = word_end cur ++ cores s.
Proof. reflexivity. Qed.

Lemma cores_from_space cur x s :
  isspace x = true -> x <> nl -> cores_from cur (x :: s) = cores_from cur s.
Proof.
  intros Hx Hn. cbn [cores_from].
  rewrite (proj2 (N.eqb_neq x nl) Hn), Hx. reflexivity.
Qed.

Lemma cores_from_text cur x s :
  isspace x = false -> cores_from cur (x :: s) = cores_from (x :: cur) s.
Proof.
  intros Hx. cbn [cores_from].
  rewrite (proj2 (N.eqb_neq x nl) (not_space_not_nl x Hx)), Hx.
  reflexivity.
Qed.

(** The three cases of one character. *)
Lemma codepoint_cases x :
  x = nl \/ (isspace x = true /\ x <> nl) \/ isspace x = false.
Proof.
  destruct (N.eq_dec x nl) as [->|Hn]; [left; reflexivity|].
  destruct (isspace x); auto.
Qed.

Lemma cores_from_inline cur a s :
  Forall inline_ws a -> cores_from cur (a ++ s) = cores_from cur s.
Proof.
  induction 1 as [|x a [Hx Hn] _ IH]; [reflexivity|].
  cbn [app]. rewrite cores_from_space by assumption. exact IH.
Qed.

Lemma word_end_nil_l (l : list str) : word_end [] ++ l = l.
Proof. reflexivity. Qed.

Lemma cores_from_newlines cur s : forall k,
  (1 <= k)%nat ->
  cores_from cur (repeat nl k ++ s) = word_end cur ++ cores s.
Proof.
  intros k Hk. destruct k as [|k]; [lia|]. clear Hk.
  cbn [repeat app]. rewrite cores_from_nl. f_equal.
  induction k as [|k IH]; [reflexivity|].
  cbn [repeat app]. unfold cores at 1. rewrite cores_from_nl. exact IH.
Qed.

Lemma cores_from_prefix a b :
  (forall cur, cores_from cur a = cores_from cur b) ->
  forall p cur, cores_from cur (p ++ a) = cores_from cur (p ++ b).
Proof.
  intros H p. induction p as [|x r IH]; intros cur; [apply H|].
  cbn [app]. destruct (codepoint_cases x) as [->|[[Hx Hn]|Hx]].
  - rewrite !cores_from_nl. unfold cores. rewrite IH. reflexivity.
  - rewrite !cores_from_space by assumption. apply IH.
  - rewrite !cores_from_text by assumption. apply IH.
Qed.

Lemma cores_from_blank cur b :
  forallb isspace b = true -> cores_from cur b = word_end cur.
Proof.
  revert cur. induction b as [|x r IH]; intros cur H; [reflexivity|].
  cbn [forallb] in H. apply andb_prop in H. destruct H as [Hx Hr].
  destruct (N.eq_dec x nl) as [->|Hn].
  - rewrite cores_from_nl. unfold cores. rewrite (IH [] Hr).
    apply app_nil_r.
  - rewrite cores_from_space by assumption. apply IH, Hr.
Qed.

Lemma cores_blank_app a s :
  forallb isspace a = true -> cores (a ++ s) = cores s.
Proof.
  unfold cores. induction a as [|x r IH]; intros H; [reflexivity|].
  cbn [forallb] in H. apply andb_prop in H. destruct H as [Hx Hr].
  cbn [app]. destruct (N.eq_dec x nl) as [->|Hn].
  - rewrite cores_from_nl. unfold cores. apply IH, Hr.
  - rewrite cores_from_space by assumption. apply IH, Hr.
Qed.

Lemma cores_from_app_blank cur t b :
  forallb isspace b = true -> cores_from cur (t ++ b) = cores_from cur t.
Proof.
  intros Hb. revert cur. induction t as [|x r IH]; intros cur.
  - cbn [app]. apply cores_from_blank, Hb.
  - cbn [app]. destruct (codepoint_cases x) as [->|[[Hx Hn]|Hx]].
    + rewrite !cores_from_nl. unfold cores. rewrite IH. reflexivity.
    + rewrite !cores_from_space by assumption. apply IH.
    + rewrite !cores_from_text by assumption. apply IH.
Qed.

Lemma cores_strip s : cores (strip s) = cores s.
Proof.
  destruct (strip_middle s) as [a [b [Hs [Ha Hb]]]].
  rewrite Hs at 2. rewrite cores_blank_app by exact Ha.
  unfold cores. rewrite cores_from_app_blank by exact Hb. reflexivity.
Qed.

Lemma cores_from_app_nl cur a b :
  cores_from cur (a ++ nl :: b) = cores_from cur a ++ cores b.
Proof.
  revert cur. induction a as [|x r IH]; intros cur.
  - cbn [app]. rewrite cores_from_nl. reflexivity.
  - cbn [app]. destruct (codepoint_cases x) as [->|[[Hx Hn]|Hx]].
    + rewrite !cores_from_nl. unfold cores at 1 2.
      rewrite IH, app_assoc. reflexivity.
    + rewrite !cores_from_space by assumption. apply IH.
    + rewrite !cores_from_text by assumption. apply IH.
Qed.

Lemma cores_join ls : cores (join nl ls) = List.concat (map cores ls).
Proof.
  induction ls as [|l ls IH]; [reflexivity|].
  destruct ls as [|l' ls'].
  - cbn [join map List.concat]. symmetry. apply app_nil_r.
  - change (join nl (l :: l' :: ls')) with (l ++ nl :: join nl (l' :: ls')).
    unfold cores at 1. rewrite cores_from_app_nl, IH. reflexivity.
Qed.

Lemma cores_strip_lines s : cores (strip_lines s) = cores s.
Proof.
  unfold strip_lines. rewrite cores_join, map_map.
  rewrite (map_ext _ cores cores_strip).
  rewrite <- cores_join, join_split. reflexivity.
Qed.

Lemma collapse_spaces_from_cores s : forall k cur,
  cores_from cur (sub_run_from sp 1 [sp] k s) = cores_from cur s.
Proof.
  assert (Hf : forall k, Forall inline_ws (flush sp 1 [sp] k)).
  { intros k. unfold flush. destruct (1 <=? k)%nat.
    - constructor; [split; [reflexivity | discriminate] | constructor].
    - apply Forall_forall. intros y Hy. apply repeat_spec in Hy. subst.
      split; [reflexivity | discriminate]. }
  induction s as [|x r IH]; intros k cur; cbn [sub_run_from].
  - rewrite <- (app_nil_r (flush sp 1 [sp] k)).
    apply cores_from_inline, Hf.
  - destruct (x =? sp)%N eqn:E.
    + apply N.eqb_eq in E. subst x. rewrite IH.
      symmetry. apply cores_from_space; [reflexivity | discriminate].
    + rewrite cores_from_inline by apply Hf.
      apply (cores_from_prefix _ r (fun c => IH 0%nat c) [x] cur).
Qed.

Lemma flush_newlines_cores k cur s :
  cores_from cur (flush nl 3 [nl; nl] k ++ s)
  = cores_from cur (repeat nl k ++ s).
Proof.
  unfold flush. destruct (Nat.leb_spec 3 k); [|reflexivity].
  change [nl; nl] with (repeat nl 2).
  rewrite (cores_from_newlines cur s 2) by lia.
  rewrite cores_from_newlines by lia. reflexivity.
Qed.

Lemma collapse_newlines_from_cores s : forall k cur,
  cores_from cur (sub_run_from nl 3 [nl; nl] k s)
  = cores_from cur (repeat nl k ++ s).
Proof.
  induction s as [|x r IH]; intros k cur; cbn [sub_run_from].
  - rewrite <- (app_nil_r (flush nl 3 [nl; nl] k)).
    apply flush_newlines_cores.
  - destruct (x =? nl)%N eqn:E.
    + apply N.eqb_eq in E. subst x. rewrite IH.
      change (repeat nl (S k)) with (nl :: repeat nl k).
      rewrite repeat_cons, <- app_assoc. reflexivity.
    + rewrite flush_newlines_cores.
      pose proof (cores_from_prefix (sub_run_from nl 3 [nl; nl] 0 r) r
                    (fun c => IH 0%nat c) (repeat nl k ++ [x]) cur) as H.
      rewrite <- !app_assoc in H. exact H.
Qed.

Lemma clean_text_cores s : cores (clean_text s) = cores s.
Proof.
  unfold clean_text.
  fold (strip_lines (collapse_newlines (collapse_spaces s))).
  rewrite cores_strip, cores_strip_lines.
  unfold collapse_newlines, collapse_spaces, sub_run, cores.
  rewrite collapse_newlines_from_cores. cbn [repeat app].
  apply collapse_spaces_from_cores.
Qed.

(** Within one line the scan gives the line without its whitespace, if
    anything is left. *)
Lemma cores_from_line l : forall cur,
  ~ In nl l ->
  cores_from cur l
  = word_end (rev (filter (fun c => negb (isspace c)) l) ++ cur).
Proof.
  induction l as [|x r IH]; intros cur Hn; [reflexivity|].
  assert (Hr : ~ In nl r) by (intros H; apply Hn; right; exact H).
  destruct (codepoint_cases x) as [->|[[Hx Hx']|Hx]].
  - exfalso. apply Hn. left. reflexivity.
  - rewrite cores_from_space by assumption. cbn [filter]. rewrite Hx.
    apply IH, Hr.
  - rewrite cores_from_text by assumption. cbn [filter]. rewrite Hx.
    cbn [negb rev]. rewrite <- app_assoc. apply IH, Hr.
Qed.

Lemma filter_nonspace_nil l :
  filter (fun c => negb (isspace c)) l = [] <-> forallb isspace l = true.
Proof.
  induction l as [|x r IH]; [split; reflexivity|].
  cbn [filter forallb]. destruct (isspace x); cbn [negb andb].
  - exact IH.
  - split; discriminate.
Qed.

Lemma cores_line_length l :
  ~ In nl l ->
  List.length (cores l) = if truthy (strip l) then 1%nat else 0%nat.
Proof.
  intros Hn. unfold cores. rewrite (cores_from_line l [] Hn), app_nil_r.
  rewrite truthy_strip.
  destruct (forallb isspace l) eqn:E; cbn [negb].
  - apply filter_nonspace_nil in E. rewrite E. reflexivity.
  - destruct (filter _ l) as [|y t] eqn:F.
    + apply filter_nonspace_nil in F. congruence.
    + cbn [rev]. destruct (rev t ++ [y]) eqn:R; [|reflexivity].
      apply app_eq_nil in R. destruct R; discriminate.
Qed.

Lemma stat_lines_cores s : stat_lines s = List.length (cores s).
Proof.
  unfold stat_lines.
  rewrite <- (join_split nl s) at 2. rewrite cores_join.
  pose proof (split_pieces nl s) as H.
  induction H as [|l ls Hl _ IH]; [reflexivity|].
  cbn [filter map List.concat]. rewrite length_app, cores_line_length by exact Hl.
  destruct (truthy (strip l)); cbn [List.length]; rewrite IH; reflexivity.
Qed.

End CoreFacts.

(** X15: [clean_text] keeps the non-blank lines: the lines of its output
    that hold a non-whitespace character are, whitespace aside and in the
    same order, those of its input; so it neither merges nor splits nor
    drops a line with text, and the count of non-blank lines is the one of
    the raw text. *)
Theorem clean_text_preserves_nonblank_lines (s : str) :
  cores (clean_text s) = cores s
  /\ stat_lines (clean_text s) = stat_lines s.
Proof.
  split; [apply clean_text_cores|].
  rewrite !stat_lines_cores, clean_text_cores. reflexivity.
Qed.
